(** * ShapleyExplainer (src/shapley_explainer.py): a shallow embedding

    The class computes Shapley values of a black-box model against a
    background dataset.  This development embeds its five methods and the
    pieces of Python, itertools, math and NumPy they call, and states the
    properties of the specification over that embedding.

    Conventions of the embedding.
    - A Python [int] is a [Z].
    - A Python or NumPy float is the exact rational it denotes ([Qc], a
      fraction in lowest terms), or [NaN].  Rounding, overflow and infinities
      of binary64 are outside the model; so is the range of int64.
    - A two-dimensional [ndarray] is the list of its rows together with its
      dtype (int64 or float64).  Arrays are objects: they live in a store
      and are passed by location, so that copying and in-place assignment
      are what they are in NumPy.
    - An exception is a value of [exn]; a computation that touches the store
      has type [Py A] and hands back the store also when it raises. *)

From Stdlib Require Import ZArith QArith Qcanon Factorial Lia.
From stdpp Require Import base tactics option numbers list list_numbers.

Local Open Scope Z_scope.

(** ** Exceptions and results *)

Inductive exn : Type :=
| IndexError          (* subscript out of range *)
| ValueError          (* math.factorial of a negative; NaN stored as an int *)
| ZeroDivisionError   (* int / 0 *)
| DanglingReference.  (* a location outside the store; no Python program
                         reaches it *)

Inductive result (A : Type) : Type :=
| Ok (a : A)
| Raise (e : exn).
Arguments Ok {A} a.
Arguments Raise {A} e.

#[global] Instance result_ret : MRet result := λ A a, Ok a.
#[global] Instance result_bind : MBind result := λ A B f r,
  match r with
  | Ok a => f a
  | Raise e => Raise e
  end.
#[global] Instance result_fmap : FMap result := λ A B f r,
  match r with
  | Ok a => Ok (f a)
  | Raise e => Raise e
  end.

(** ** Floats *)

Inductive float : Type :=
| Fin (q : Qc)
| NaN.

Definition float_of_int (z : Z) : float := Fin (Qc_of_Z z).

Definition fadd (x y : float) : float :=
  match x, y with
  | Fin a, Fin b => Fin (a + b)%Qc
  | _, _ => NaN
  end.

Definition fsub (x y : float) : float :=
  match x, y with
  | Fin a, Fin b => Fin (a - b)%Qc
  | _, _ => NaN
  end.

Definition fmul (x y : float) : float :=
  match x, y with
  | Fin a, Fin b => Fin (a * b)%Qc
  | _, _ => NaN
  end.

(** [a / b] on two Python ints: true division. *)
Definition truediv (a b : Z) : result float :=
  if bool_decide (b = 0) then Raise ZeroDivisionError
  else Ok (Fin (Qc_of_Z a / Qc_of_Z b)%Qc).

(** Conversion of a finite float to an integer: the fractional part is
    dropped (rounding toward zero). *)
Definition trunc (q : Qc) : Z := Z.quot (Qnum q) (Zpos (Qden q)).

(** ** math.factorial, range, itertools *)

Definition factorial (n : Z) : result Z :=
  if bool_decide (n < 0) then Raise ValueError
  else Ok (Z.of_nat (fact (Z.to_nat n))).

(** [range(a, b)] and [range(b)]. *)
Definition range2 (a b : Z) : list Z := seqZ a (b - a).
Definition range (b : Z) : list Z := range2 0 b.

(** [itertools.combinations(items, r)]: the subsequences of [items] of
    length [r], in lexicographic order of the positions they take. *)
Fixpoint combinations {A : Type} (items : list A) (r : nat) : list (list A) :=
  match r, items with
  | O, _ => [[]]
  | S _, [] => []
  | S r', x :: items' =>
      ((x ::.) <$> combinations items' r') ++ combinations items' r
  end.

(** [itertools.chain.from_iterable]. *)
Definition chain_from_iterable {A : Type} (its : list (list A)) : list A :=
  mjoin its.

(** ** NumPy arrays *)

Inductive dtype : Type := int64 | float64.

(** A NumPy scalar, as [instance[j]] gives it. *)
Inductive scalar : Type :=
| SInt (z : Z)
| SFloat (x : float).

(** A one-dimensional array, as [X[i]] gives it. *)
Inductive ndarray1 : Type :=
| IntVec (l : list Z)
| FloatVec (l : list float).

(** A two-dimensional array, row by row.  In an array of NumPy all rows have
    one length ([rectangular]). *)
Inductive ndarray : Type :=
| IntArray (rows : list (list Z))
| FloatArray (rows : list (list float)).

Definition dtype_of (a : ndarray) : dtype :=
  match a with
  | IntArray _ => int64
  | FloatArray _ => float64
  end.

Definition nrows (a : ndarray) : nat :=
  match a with
  | IntArray rows => length rows
  | FloatArray rows => length rows
  end.

Definition ncols (a : ndarray) : nat :=
  match a with
  | IntArray rows => from_option length 0%nat (head rows)
  | FloatArray rows => from_option length 0%nat (head rows)
  end.


(** [len(v)] and [v[j]] for a one-dimensional array and [j >= 0]. *)
Definition len1 (v : ndarray1) : Z :=
  match v with
  | IntVec l => Z.of_nat (length l)
  | FloatVec l => Z.of_nat (length l)
  end.

Definition getitem1 (v : ndarray1) (j : Z) : result scalar :=
  match v with
  | IntVec l => from_option (λ z, Ok (SInt z)) (Raise IndexError) (l !! Z.to_nat j)
  | FloatVec l => from_option (λ x, Ok (SFloat x)) (Raise IndexError) (l !! Z.to_nat j)
  end.

(** [X[i]] for [0 <= i < len(X)]. *)
Definition getrow (a : ndarray) (i : Z) : result ndarray1 :=
  match a with
  | IntArray rows => from_option (λ r, Ok (IntVec r)) (Raise IndexError) (rows !! Z.to_nat i)
  | FloatArray rows => from_option (λ r, Ok (FloatVec r)) (Raise IndexError) (rows !! Z.to_nat i)
  end.

(** The value a NumPy scalar takes when it is assigned into an array of the
    other dtype.  A NaN assigned into an int64 array by a slice assignment
    is converted by the C cast, which gives the least int64 (and a warning,
    no exception). *)
Definition int64_min : Z := - 2 ^ 63.

Definition scalar_as_int (s : scalar) : Z :=
  match s with
  | SInt z => z
  | SFloat (Fin q) => trunc q
  | SFloat NaN => int64_min
  end.

Definition scalar_as_float (s : scalar) : float :=
  match s with
  | SInt z => float_of_int z
  | SFloat x => x
  end.

(** A Python float stored into one cell of an int64 array goes through the
    conversion of Python, which refuses NaN. *)
Definition pyfloat_as_int (x : float) : result Z :=
  match x with
  | Fin q => Ok (trunc q)
  | NaN => Raise ValueError
  end.

Definition setcol_rows {A : Type} (j : nat) (v : A) (rows : list (list A))
  : result (list (list A)) :=
  if bool_decide (Forall (λ r, (j < length r)%nat) rows)
  then Ok ((λ r, <[j := v]> r) <$> rows)
  else Raise IndexError.

(** [a[:, j] = s] for [j >= 0]: the scalar is broadcast over column [j]. *)
Definition setcol (a : ndarray) (j : Z) (s : scalar) : result ndarray :=
  match a with
  | IntArray rows => IntArray <$> setcol_rows (Z.to_nat j) (scalar_as_int s) rows
  | FloatArray rows => FloatArray <$> setcol_rows (Z.to_nat j) (scalar_as_float s) rows
  end.

Definition setitem_rows {A : Type} (i j : nat) (v : A) (rows : list (list A))
  : result (list (list A)) :=
  match rows !! i with
  | Some r =>
      if bool_decide (j < length r)%nat then Ok (<[i := <[j := v]> r]> rows)
      else Raise IndexError
  | None => Raise IndexError
  end.

(** [a[i, j] = x] for a Python float [x] and [i, j >= 0]. *)
Definition setitem (a : ndarray) (i j : Z) (x : float) : result ndarray :=
  match a with
  | IntArray rows =>
      z ← pyfloat_as_int x;
      IntArray <$> setitem_rows (Z.to_nat i) (Z.to_nat j) z rows
  | FloatArray rows =>
      FloatArray <$> setitem_rows (Z.to_nat i) (Z.to_nat j) x rows
  end.

(** [np.zeros_like(a)]: same shape and same dtype, filled with zeros. *)
Definition zeros_like (a : ndarray) : ndarray :=
  match a with
  | IntArray rows => IntArray ((λ r : list Z, (λ _, 0) <$> r) <$> rows)
  | FloatArray rows =>
      FloatArray ((λ r : list float, (λ _, float_of_int 0) <$> r) <$> rows)
  end.

(** [np.mean] over all the entries of an array of predictions, whatever its
    shape; the mean of no entry is NaN. *)
Definition fsum (l : list float) : float := foldr fadd (float_of_int 0) l.

Definition np_mean (l : list float) : float :=
  match l with
  | [] => NaN
  | _ =>
      match fsum l with
      | Fin s => Fin (s / Qc_of_Z (Z.of_nat (length l)))%Qc
      | NaN => NaN
      end
  end.

(** ** The store of arrays *)

Abbreviation loc := nat (only parsing).
Abbreviation store := (list ndarray) (only parsing).

Definition Py (A : Type) : Type := store → result A * store.

#[global] Instance Py_ret : MRet Py := λ A a σ, (Ok a, σ).
#[global] Instance Py_bind : MBind Py := λ A B f m σ,
  match m σ with
  | (Ok a, σ') => f a σ'
  | (Raise e, σ') => (Raise e, σ')
  end.

Definition lift {A : Type} (r : result A) : Py A := λ σ, (r, σ).

Definition alloc (a : ndarray) : Py loc := λ σ, (Ok (length σ), σ ++ [a]).

Definition load (l : loc) : Py ndarray := λ σ,
  (from_option Ok (Raise DanglingReference) (σ !! l), σ).

Definition store_at (l : loc) (a : ndarray) : Py unit := λ σ,
  if bool_decide (l < length σ)%nat then (Ok (), <[l := a]> σ)
  else (Raise DanglingReference, σ).

(** [copy.deepcopy] of an array: a new object with the same contents. *)
Definition deepcopy (l : loc) : Py loc := a ← load l; alloc a.

(** [np.zeros_like(X)], [len(a)], [X.shape], [X[i]], [a[:, j] = s] and
    [a[i, j] = x] on array objects.  [X[i]] is a view of row [i]; the class
    never writes to [X], so the row is read where the view is taken.  The
    store keeps what Python would reclaim: the copies stay in it. *)
Definition zeros_like_at (l : loc) : Py loc := a ← load l; alloc (zeros_like a).

Definition len_at (l : loc) : Py Z := a ← load l; mret (Z.of_nat (nrows a)).

Definition shape_at (l : loc) : Py (Z * Z) :=
  a ← load l; mret (Z.of_nat (nrows a), Z.of_nat (ncols a)).

Definition getrow_at (l : loc) (i : Z) : Py ndarray1 :=
  a ← load l; lift (getrow a i).

Definition setcol_at (l : loc) (j : Z) (s : scalar) : Py unit :=
  a ← load l; a' ← lift (setcol a j s); store_at l a'.

Definition setitem_at (l : loc) (i j : Z) (x : float) : Py unit :=
  a ← load l; a' ← lift (setitem a i j x); store_at l a'.

(** [for x in l: body], without and with a local variable that the body
    updates. *)
Fixpoint for_each {A : Type} (l : list A) (body : A → Py unit) : Py unit :=
  match l with
  | [] => mret ()
  | x :: l' => body x;; for_each l' body
  end.

Fixpoint for_fold {A B : Type} (l : list A) (acc : B) (body : B → A → Py B)
  : Py B :=
  match l with
  | [] => mret acc
  | x :: l' => acc' ← body acc x; for_fold l' acc' body
  end.

(** ** The class *)

(** The model is a callable from an array to an array of predictions.  It is
    taken deterministic and free of side effects, so it is a function of the
    contents of the array it is given; its predictions are listed entry by
    entry. *)
Record ShapleyExplainer : Type := {
  model : ndarray → list float;
  background_dataset : loc
}.

(** [__init__] stores the two references. *)
Definition __init__ (model : ndarray → list float) (background_dataset : loc)
  : ShapleyExplainer :=
  {| model := model; background_dataset := background_dataset |}.

Definition _get_all_subsets (items : list Z) : list (list Z) :=
  chain_from_iterable
    ((λ r, combinations items (Z.to_nat r)) <$> range (Z.of_nat (length items) + 1)).

Definition _get_all_other_feature_subsets (n_features feature_of_interest : Z)
  : list (list Z) :=
  let other_features :=
    filter (λ i, i ≠ feature_of_interest) (range n_features) in
  _get_all_subsets other_features.

Definition _permutation_factor (n_features n_subset : Z) : result float :=
  a ← factorial n_subset;
  b ← factorial (n_features - n_subset - 1);
  c ← factorial n_features;
  truediv (a * b) c.

Definition _subset_model_approximation (self : ShapleyExplainer)
    (feature_subset : list Z) (instance : ndarray1) : Py float :=
  dataset ← deepcopy (background_dataset self);
  n_features ← len_at dataset;
  for_each (range2 0 (n_features - 1)) (λ j,
    if bool_decide (j ∈ feature_subset)
    then v ← lift (getitem1 instance j); setcol_at dataset j v
    else mret ());;
  d ← load dataset;
  let predictions := model self d in
  mret (np_mean predictions).

Definition _compute_single_shapley_value (self : ShapleyExplainer)
    (feature : Z) (instance : ndarray1) : Py float :=
  let n_features := len1 instance in
  for_fold (_get_all_other_feature_subsets n_features feature) (float_of_int 0)
    (λ accumulator S,
      let S_plus_feature := S ++ [feature] in
      without_feature ← _subset_model_approximation self S instance;
      with_feature ← _subset_model_approximation self S_plus_feature instance;
      weight ← lift (_permutation_factor n_features (Z.of_nat (length S)));
      mret (fadd accumulator (fmul weight (fsub with_feature without_feature)))).

Definition shapley_values (self : ShapleyExplainer) (X : loc) : Py loc :=
  shapley_values ← zeros_like_at X;
  '(n_instances, n_features) ← shape_at X;
  for_each (range n_instances) (λ i,
    for_each (range n_features) (λ j,
      Xi ← getrow_at X i;
      v ← _compute_single_shapley_value self j Xi;
      setitem_at shapley_values i j v));;
  mret shapley_values.

(** * Definitions used by the statements *)

(** ** Decidable equality *)

#[global] Instance exn_eq_dec : EqDecision exn.
Proof. solve_decision. Defined.

#[global] Instance float_eq_dec : EqDecision float.
Proof. solve_decision. Defined.

#[global] Instance result_eq_dec {A : Type} `{EqDecision A} : EqDecision (result A).
Proof. solve_decision. Defined.

#[global] Instance scalar_eq_dec : EqDecision scalar.
Proof. solve_decision. Defined.

#[global] Instance ndarray1_eq_dec : EqDecision ndarray1.
Proof. solve_decision. Defined.

#[global] Instance ndarray_eq_dec : EqDecision ndarray.
Proof. solve_decision. Defined.

(** Closed facts are settled by evaluation. *)
Ltac by_evaluation := apply (bool_decide_unpack _); vm_compute; exact I.

(** ** Counting coalitions and summing weights *)

(** Pascal's triangle, to count the combinations. *)
Fixpoint binom (n k : nat) : nat :=
  match n, k with
  | _, O => 1
  | O, S _ => 0
  | S n', S k' => binom n' k' + binom n' k
  end.


(** The sum of a list of rationals. *)
Definition sumQc (l : list Qc) : Qc := foldr Qcplus 0%Qc l.

(** The weight as a rational, for K = M - 1 other features. *)
Definition weightQc (K s : nat) : Qc :=
  (Qc_of_Z (Z.of_nat (fact s) * Z.of_nat (fact (K - s)))
   / Qc_of_Z (Z.of_nat (fact (S K))))%Qc.

(** ** What the loops compute *)

(** A loop whose body may raise, run on a value. *)
Fixpoint fold_result {A B : Type} (step : B → A → result B) (l : list A) (b : B)
  : result B :=
  match l with
  | [] => Ok b
  | x :: l' => b' ← step b x; fold_result step l' b'
  end.

(** The loop of [_subset_model_approximation] on the contents of the copy. *)
Definition overwrite_column (feature_subset : list Z) (instance : ndarray1)
    (dataset : ndarray) (j : Z) : result ndarray :=
  if bool_decide (j ∈ feature_subset)
  then v ← getitem1 instance j; setcol dataset j v
  else Ok dataset.

Definition overwrite_columns (feature_subset : list Z) (instance : ndarray1)
    (background : ndarray) : result ndarray :=
  fold_result (overwrite_column feature_subset instance)
    (range2 0 (Z.of_nat (nrows background) - 1)) background.

(** The values the methods return when the background dataset holds
    [background]. *)
Definition subset_model_value (self : ShapleyExplainer) (background : ndarray)
    (feature_subset : list Z) (instance : ndarray1) : result float :=
  (λ d, np_mean (model self d)) <$> overwrite_columns feature_subset instance background.

(** One turn of the loop of [_compute_single_shapley_value], and the loop. *)
Definition marginal_step (self : ShapleyExplainer) (background : ndarray)
    (n_features feature : Z) (instance : ndarray1) (accumulator : float)
    (S : list Z) : result float :=
  without_feature ← subset_model_value self background S instance;
  with_feature ← subset_model_value self background (S ++ [feature]) instance;
  weight ← _permutation_factor n_features (Z.of_nat (length S));
  Ok (fadd accumulator (fmul weight (fsub with_feature without_feature))).

Definition single_shapley_value (self : ShapleyExplainer) (background : ndarray)
    (feature : Z) (instance : ndarray1) : result float :=
  fold_result
    (marginal_step self background (len1 instance) feature instance)
    (_get_all_other_feature_subsets (len1 instance) feature) (float_of_int 0).

(** The loops of [shapley_values] on the contents of the output array: one
    cell, one row, all the rows. *)
Definition fill_cell (self : ShapleyExplainer) (background X : ndarray)
    (i : Z) (out : ndarray) (j : Z) : result ndarray :=
  Xi ← getrow X i;
  v ← single_shapley_value self background j Xi;
  setitem out i j v.

Definition fill_row (self : ShapleyExplainer) (background X : ndarray)
    (out : ndarray) (i : Z) : result ndarray :=
  fold_result (fill_cell self background X i) (range (Z.of_nat (ncols X))) out.

Definition fill_all (self : ShapleyExplainer) (background X : ndarray)
  : result ndarray :=
  fold_result (fill_row self background X) (range (Z.of_nat (nrows X)))
    (zeros_like X).

(** The entry (i, j) of an array, if there is one. *)
Definition cell {A : Type} (rows : list (list A)) (i j : nat) : option A :=
  rows !! i ≫= λ r, r !! j.



(** The lengths of the rows of an array: its shape, row by row. *)
Definition row_lengths (a : ndarray) : list nat :=
  match a with
  | IntArray rows => length <$> rows
  | FloatArray rows => length <$> rows
  end.

(** ** The approximator in the words of the specification *)

(** The synthetic dataset in the words of the specification: every column
    whose index belongs to the coalition is overwritten with the value of
    the instance at that index. *)
Definition spec_synthetic_dataset (coalition : list Z) (instance : ndarray1)
    (background : ndarray) : result ndarray :=
  fold_result (λ dataset j, v ← getitem1 instance j; setcol dataset j v)
    coalition background.

Definition spec_subset_model_value (self : ShapleyExplainer) (background : ndarray)
    (coalition : list Z) (instance : ndarray1) : result float :=
  (λ d, np_mean (model self d)) <$> spec_synthetic_dataset coalition instance background.

(** ** Models and inputs *)

(** The linear model f(x0, x1) = 2 x0 + 3 x1, one prediction per row. *)
Definition linear_model (a : ndarray) : list float :=
  match a with
  | IntArray rows =>
      (λ r, match r with
            | [x0; x1] => float_of_int (2 * x0 + 3 * x1)
            | _ => NaN
            end) <$> rows
  | FloatArray rows =>
      (λ r, match r with
            | [x0; x1] => fadd (fmul (float_of_int 2) x0) (fmul (float_of_int 3) x1)
            | _ => NaN
            end) <$> rows
  end.

(** A model that answers one prediction whatever the number of rows. *)
Definition one_prediction_model (a : ndarray) : list float := [float_of_int 7].

(** The first column as the prediction. *)
Definition first_column_model (a : ndarray) : list float :=
  match a with
  | IntArray rows => (λ r, from_option float_of_int NaN (head r)) <$> rows
  | FloatArray rows => (λ r, default NaN (head r)) <$> rows
  end.

(** The scenario of the specification: background [[0,0],[2,2]] at location
    0 and the input [[4,6]] at location 1, with int64 and with float64
    entries. *)
Definition background_int : ndarray := IntArray [[0; 0]; [2; 2]].

Definition X_int : ndarray := IntArray [[4; 6]].

Definition store_int : store := [background_int; X_int].

Definition background_float : ndarray :=
  FloatArray [[float_of_int 0; float_of_int 0]; [float_of_int 2; float_of_int 2]].

Definition X_float : ndarray := FloatArray [[float_of_int 4; float_of_int 6]].

Definition store_float : store := [background_float; X_float].

Definition linear_explainer : ShapleyExplainer := __init__ linear_model 0%nat.

Definition one_prediction_explainer : ShapleyExplainer :=
  __init__ one_prediction_model 0%nat.

(** One feature, the background [[0],[1]] at location 0 and the input [[1]]
    at location 1, int64 entries. *)
Definition background_column : ndarray := IntArray [[0]; [1]].

Definition X_one : ndarray := IntArray [[1]].

Definition store_column : store := [background_column; X_one].

Definition first_column_explainer : ShapleyExplainer :=
  __init__ first_column_model 0%nat.

(** ** Coalition values, for the sum of the Shapley values *)

(** A value of coalitions that depends on the features of the coalition,
    not on their order. *)
Definition coalition_invariant (u : list Z → Qc) : Prop :=
  ∀ S1 S2, (∀ x, x ∈ S1 ↔ x ∈ S2) → u S1 = u S2.

(** The weight of a coalition of size r among all M = K + 1 features. *)
Definition sizeQc (K r : nat) : Qc :=
  (Qc_of_Z (Z.of_nat (fact r) * Z.of_nat (fact (S K - r)))
   / Qc_of_Z (Z.of_nat (fact (S K))))%Qc.

(** The value of a coalition as a rational (0 where the approximator raises
    or returns NaN). *)
Definition coalition_value (self : ShapleyExplainer) (bg : ndarray)
    (instance : ndarray1) (C : list Z) : Qc :=
  match subset_model_value self bg C instance with
  | Ok (Fin q) => q
  | _ => 0%Qc
  end.

(** A row of the background after the loop over [js]: the entries at the
    positions of the coalition that the loop visits come from the
    instance. *)
Definition mixed_row (C js : list Z) (x r : list float) : list float :=
  imap (λ p v,
    if bool_decide (Z.of_nat p ∈ C ∧ Z.of_nat p ∈ js) then default v (x !! p)
    else v) r.

(** A row of M finite entries. *)
Definition finite_row (M : nat) (r : list float) : Prop :=
  length r = M ∧ Forall (λ v, v ≠ NaN) r.

(** The prediction of the linear model on one row of finite entries. *)
Definition linear_predict (r : list float) : Qc :=
  match r with
  | [Fin x0; Fin x1] => (Qc_of_Z 2 * x0 + Qc_of_Z 3 * x1)%Qc
  | _ => 0%Qc
  end.

(** The background of the scenario with one more row, [[0,0],[2,2],[1,1]]:
    the column means are still 1 and 1. *)
Definition background_three_rows : list (list float) :=
  [[float_of_int 0; float_of_int 0]; [float_of_int 2; float_of_int 2];
   [float_of_int 1; float_of_int 1]].

Definition store_three_rows : store := [FloatArray background_three_rows; X_float].

(** * Properties *)

(** ** The subset enumerator *)

Section combinations_facts.
Context {A : Type}.
Implicit Types (items S : list A) (r : nat).

Lemma combinations_0 items : combinations items 0 = [[]].
Proof. by destruct items. Qed.

Lemma elem_of_combinations items r S :
  S ∈ combinations items r ↔ S `sublist_of` items ∧ length S = r.
Proof.
  revert r S. induction items as [|x items IH]; intros [|r] S; simpl.
  - rewrite list_elem_of_singleton, sublist_nil_r.
    split; [by intros ->|]. by intros [-> _].
  - rewrite elem_of_nil, sublist_nil_r. split; [done|]. by intros [-> ?].
  - rewrite list_elem_of_singleton. split.
    + intros ->. split; [apply sublist_nil_l|done].
    + intros [_ ?]. by apply nil_length_inv.
  - rewrite elem_of_app, list_elem_of_fmap, IH, sublist_cons_r. split.
    + intros [(S' & -> & HS')|[??]].
      * apply IH in HS' as [??]. split; [right; eauto|]. simpl. by f_equal.
      * split; [by left|done].
    + intros [[?|(S' & -> & ?)] Hlen]; [by right|].
      left. exists S'. split; [done|]. apply IH. simpl in Hlen. split; [done|lia].
Qed.

Lemma NoDup_combinations items r :
  NoDup items → NoDup (combinations items r).
Proof.
  intros Hnd. revert r.
  induction Hnd as [|x items Hx Hnd IH]; intros [|r]; simpl;
    try apply NoDup_singleton; [apply NoDup_nil_2|].
  apply NoDup_app. split_and!.
  - apply (NoDup_fmap_2 _), IH.
  - intros S (S' & -> & _)%list_elem_of_fmap [Hsub _]%elem_of_combinations.
    apply Hx. eapply elem_of_sublist; [|done]. by left.
  - apply IH.
Qed.
End combinations_facts.

Lemma binom_0_r n : binom n 0 = 1%nat.
Proof. by destruct n. Qed.

Lemma binom_gt n k : (n < k)%nat → binom n k = 0%nat.
Proof.
  revert k. induction n as [|n IH]; intros [|k] ?; simpl; try lia.
  rewrite !IH by lia. done.
Qed.


Lemma binom_S_S n k : binom (S n) (S k) = (binom n k + binom n (S k))%nat.
Proof. done. Qed.

Lemma sum_list_binom_S n (l : list nat) :
  sum_list (binom (S n) ∘ S <$> l)
  = (sum_list (binom n <$> l) + sum_list (binom n ∘ S <$> l))%nat.
Proof.
  induction l as [|i l IH]; [done|].
  rewrite !fmap_cons. cbn [sum_list_with compose id].
  rewrite IH, binom_S_S. lia.
Qed.

(** The row sums of Pascal's triangle. *)
Lemma binom_row_sum n m :
  (n < m)%nat → sum_list (binom n <$> seq 0 m) = (2 ^ n)%nat.
Proof.
  revert m. induction n as [|n IH]; intros [|m] Hm; try lia.
  - rewrite <-cons_seq, fmap_cons, <-(fmap_S_seq 0), <-list_fmap_compose.
    cbn [sum_list_with id]. generalize (seq 0 m). intros l.
    induction l as [|i l IHl]; [done|].
    rewrite fmap_cons. cbn [sum_list_with compose id binom] in *. lia.
  - rewrite <-cons_seq, fmap_cons, <-(fmap_S_seq 0), <-list_fmap_compose.
    cbn [sum_list_with id]. rewrite sum_list_binom_S, binom_0_r.
    pose proof (IH m) as IHm. pose proof (IH (S m) ltac:(lia)) as IHSm.
    rewrite <-cons_seq, fmap_cons, <-(fmap_S_seq 0), <-list_fmap_compose in IHSm.
    cbn [sum_list_with id] in IHSm. rewrite binom_0_r in IHSm.
    destruct (decide (n < m)%nat) as [Hlt|Hge].
    + rewrite IHm by done. rewrite Nat.pow_succ_r'. lia.
    + lia.
Qed.

Lemma length_combinations {A : Type} (items : list A) r :
  length (combinations items r) = binom (length items) r.
Proof.
  revert r. induction items as [|x items IH]; intros [|r]; simpl; try done.
  by rewrite length_app, length_fmap, !IH.
Qed.

Lemma range_of_nat (n : nat) : range (Z.of_nat n) = Z.of_nat <$> seq 0 n.
Proof.
  unfold range, range2, seqZ. rewrite Z.sub_0_r, Nat2Z.id.
  apply list_fmap_ext. intros _ i _. lia.
Qed.

Lemma range_nonpos (n : Z) : n ≤ 0 → range n = [].
Proof. intros. unfold range, range2. apply seqZ_nil. lia. Qed.

Lemma elem_of_range (n i : Z) : i ∈ range n ↔ 0 ≤ i < n.
Proof. unfold range, range2. rewrite elem_of_seqZ. lia. Qed.

Lemma NoDup_range (n : Z) : NoDup (range n).
Proof. apply NoDup_seqZ. Qed.

Lemma length_range (n : Z) : length (range n) = Z.to_nat n.
Proof. unfold range, range2. rewrite length_seqZ. f_equal. lia. Qed.

Lemma join_fmap_bind {A B : Type} (f : A → list B) (l : list A) :
  mjoin (f <$> l) = l ≫= f.
Proof. induction l as [|x l IH]; [done|]. csimpl. by rewrite IH. Qed.

Lemma length_bind {A B : Type} (f : A → list B) (l : list A) :
  length (l ≫= f) = sum_list ((length ∘ f) <$> l).
Proof.
  induction l as [|x l IH]; [done|]. csimpl. by rewrite length_app, IH.
Qed.

Lemma _get_all_subsets_by_size (items : list Z) :
  _get_all_subsets items = seq 0 (S (length items)) ≫= combinations items.
Proof.
  unfold _get_all_subsets, chain_from_iterable.
  replace (Z.of_nat (length items) + 1) with (Z.of_nat (S (length items))) by lia.
  rewrite range_of_nat, <-list_fmap_compose, join_fmap_bind.
  apply list_bind_ext; [|done]. intros r. simpl. by rewrite Nat2Z.id.
Qed.

Lemma elem_of__get_all_subsets (items S : list Z) :
  S ∈ _get_all_subsets items ↔ S `sublist_of` items.
Proof.
  rewrite _get_all_subsets_by_size, list_elem_of_bind. split.
  - by intros (r & [? _]%elem_of_combinations & _).
  - intros Hsub. exists (length S). split; [by apply elem_of_combinations|].
    apply elem_of_seq. apply sublist_length in Hsub. lia.
Qed.

Lemma NoDup__get_all_subsets (items : list Z) :
  NoDup items → NoDup (_get_all_subsets items).
Proof.
  intros Hnd. rewrite _get_all_subsets_by_size. apply NoDup_bind.
  - intros r1 r2 S _ _ [_ <-]%elem_of_combinations [_ <-]%elem_of_combinations.
    done.
  - intros r _. by apply NoDup_combinations.
  - apply NoDup_seq.
Qed.

Lemma length__get_all_subsets (items : list Z) :
  length (_get_all_subsets items) = (2 ^ length items)%nat.
Proof.
  rewrite _get_all_subsets_by_size, length_bind.
  rewrite <-(binom_row_sum (length items) (S (length items))) by lia.
  f_equal. apply list_fmap_ext. intros _ r _. apply length_combinations.
Qed.

(** Two subsequences of a list without repetition that have the same
    elements are the same list. *)
Lemma sublist_same_elements {A : Type} (l S1 S2 : list A) :
  NoDup l → S1 `sublist_of` l → S2 `sublist_of` l →
  (∀ x, x ∈ S1 ↔ x ∈ S2) → S1 = S2.
Proof.
  intros Hnd. revert S1 S2.
  induction Hnd as [|x l Hx Hnd IH]; intros S1 S2 H1 H2 Heq.
  - apply sublist_nil_r in H1, H2. by subst.
  - apply sublist_cons_r in H1 as [H1|(S1' & -> & H1)];
      apply sublist_cons_r in H2 as [H2|(S2' & -> & H2)].
    + by apply IH.
    + exfalso. apply Hx. eapply elem_of_sublist; [|exact H1].
      apply Heq. by left.
    + exfalso. apply Hx. eapply elem_of_sublist; [|exact H2].
      apply Heq. by left.
    + f_equal. apply IH; [done..|]. intros y. split; intros Hy.
      * assert (y ∈ x :: S2') as [->|?]%elem_of_cons; [|exfalso|done].
        { apply Heq. by right. }
        apply Hx. by eapply elem_of_sublist.
      * assert (y ∈ x :: S1') as [->|?]%elem_of_cons; [|exfalso|done].
        { apply Heq. by right. }
        apply Hx. by eapply elem_of_sublist.
Qed.

Lemma length_filter_ne_absent (x : Z) (l : list Z) :
  x ∉ l → length (filter (λ i, i ≠ x) l) = length l.
Proof.
  induction l as [|y l IH]; [done|]. intros [Hne Hl]%not_elem_of_cons.
  rewrite filter_cons_True by done. simpl. by rewrite IH.
Qed.

Lemma length_filter_ne_present (x : Z) (l : list Z) :
  NoDup l → x ∈ l → length (filter (λ i, i ≠ x) l) = pred (length l).
Proof.
  induction 1 as [|y l Hy Hnd IH]; [by intros ?%elem_of_nil|].
  intros [->|Hx]%elem_of_cons.
  - rewrite filter_cons_False by (by intros []). simpl.
    by apply length_filter_ne_absent.
  - rewrite filter_cons_True by (by intros ->). simpl. rewrite IH by done.
    destruct l; [by apply elem_of_nil in Hx|done].
Qed.

(** C7: for a list of K distinct indices [_get_all_subsets] yields 2^K
    subsets; no subset is yielded twice, and no two yielded subsets have the
    same elements; a yielded subset repeats no element and holds only
    indices of the input; for the empty input the one subset yielded is the
    empty one. *)
Theorem get_all_subsets_powerset (items : list Z) :
  NoDup items →
  length (_get_all_subsets items) = (2 ^ length items)%nat ∧
  NoDup (_get_all_subsets items) ∧
  (∀ S1 S2, S1 ∈ _get_all_subsets items → S2 ∈ _get_all_subsets items →
     (∀ x, x ∈ S1 ↔ x ∈ S2) → S1 = S2) ∧
  (∀ S, S ∈ _get_all_subsets items → NoDup S ∧ ∀ x, x ∈ S → x ∈ items) ∧
  _get_all_subsets [] = [[]].
Proof.
  intros Hnd. split_and!.
  - apply length__get_all_subsets.
  - by apply NoDup__get_all_subsets.
  - intros S1 S2 H1%elem_of__get_all_subsets H2%elem_of__get_all_subsets.
    by apply sublist_same_elements with items.
  - intros S HS%elem_of__get_all_subsets. split.
    + by eapply sublist_NoDup.
    + intros x Hx. by eapply elem_of_sublist.
  - done.
Qed.

Lemma get_all_subsets_powerset_witness :
  length (_get_all_subsets [0; 1; 2]) = (2 ^ 3)%nat ∧
  NoDup (_get_all_subsets [0; 1; 2]) ∧
  (∀ S1 S2, S1 ∈ _get_all_subsets [0; 1; 2] → S2 ∈ _get_all_subsets [0; 1; 2] →
     (∀ x, x ∈ S1 ↔ x ∈ S2) → S1 = S2) ∧
  (∀ S, S ∈ _get_all_subsets [0; 1; 2] → NoDup S ∧ ∀ x, x ∈ S → x ∈ [0; 1; 2]) ∧
  _get_all_subsets [] = [[]].
Proof.
  apply (get_all_subsets_powerset [0; 1; 2]).
  apply (bool_decide_unpack _). vm_compute. reflexivity.
Defined.

(** C8: for M >= 1 and 0 <= f < M, [_get_all_other_feature_subsets M f]
    yields exactly the subsets of the M-1 indices of [0, M) other than f:
    there are 2^(M-1) of them, none is yielded twice, each repeats no index,
    holds only indices of [0, M), never f, and at most M-1 of them; every
    set of such indices is yielded, and no two yielded subsets have the same
    elements. *)
Theorem get_all_other_feature_subsets_powerset (M f : Z) :
  1 ≤ M → 0 ≤ f < M →
  length (_get_all_other_feature_subsets M f) = (2 ^ Z.to_nat (M - 1))%nat ∧
  NoDup (_get_all_other_feature_subsets M f) ∧
  (∀ S, S ∈ _get_all_other_feature_subsets M f →
     NoDup S ∧ (f ∉ S) ∧ (∀ x, x ∈ S → 0 ≤ x < M) ∧
     0 ≤ Z.of_nat (length S) ≤ M - 1) ∧
  (∀ T : list Z, (∀ x, x ∈ T → 0 ≤ x < M ∧ x ≠ f) →
     ∃ S, S ∈ _get_all_other_feature_subsets M f ∧ ∀ x, x ∈ S ↔ x ∈ T) ∧
  (∀ S1 S2, S1 ∈ _get_all_other_feature_subsets M f →
     S2 ∈ _get_all_other_feature_subsets M f →
     (∀ x, x ∈ S1 ↔ x ∈ S2) → S1 = S2).
Proof.
  intros HM Hf. unfold _get_all_other_feature_subsets.
  set (other_features := filter (λ i, i ≠ f) (range M)).
  assert (NoDup other_features) as Hnd by apply NoDup_filter, NoDup_range.
  assert (length other_features = Z.to_nat (M - 1)) as Hlen.
  { unfold other_features.
    rewrite length_filter_ne_present by (apply NoDup_range || by apply elem_of_range).
    rewrite length_range. lia. }
  assert (∀ x, x ∈ other_features ↔ (0 ≤ x < M ∧ x ≠ f)) as Hother.
  { intros x. unfold other_features.
    rewrite list_elem_of_filter, elem_of_range. tauto. }
  split_and!.
  - by rewrite length__get_all_subsets, Hlen.
  - by apply NoDup__get_all_subsets.
  - intros S HS%elem_of__get_all_subsets. split_and!.
    + by eapply sublist_NoDup.
    + intros Hin. eapply elem_of_sublist, Hother in Hin; [|done]. tauto.
    + intros x Hin. eapply elem_of_sublist, Hother in Hin; [|done]. tauto.
    + lia.
    + apply sublist_length in HS. lia.
  - intros T HT. exists (filter (λ x, x ∈ T) other_features). split.
    + apply elem_of__get_all_subsets, sublist_filter.
    + intros x. rewrite list_elem_of_filter, Hother. split; [tauto|].
      intros Hx. specialize (HT x Hx). tauto.
  - intros S1 S2 H1%elem_of__get_all_subsets H2%elem_of__get_all_subsets.
    by apply sublist_same_elements with other_features.
Qed.

Lemma get_all_other_feature_subsets_powerset_witness :
  length (_get_all_other_feature_subsets 3 1) = (2 ^ Z.to_nat (3 - 1))%nat ∧
  NoDup (_get_all_other_feature_subsets 3 1) ∧
  (∀ S, S ∈ _get_all_other_feature_subsets 3 1 →
     NoDup S ∧ (1 ∉ S) ∧ (∀ x, x ∈ S → 0 ≤ x < 3) ∧
     0 ≤ Z.of_nat (length S) ≤ 3 - 1) ∧
  (∀ T : list Z, (∀ x, x ∈ T → 0 ≤ x < 3 ∧ x ≠ 1) →
     ∃ S, S ∈ _get_all_other_feature_subsets 3 1 ∧ ∀ x, x ∈ S ↔ x ∈ T) ∧
  (∀ S1 S2, S1 ∈ _get_all_other_feature_subsets 3 1 →
     S2 ∈ _get_all_other_feature_subsets 3 1 →
     (∀ x, x ∈ S1 ↔ x ∈ S2) → S1 = S2).
Proof. apply (get_all_other_feature_subsets_powerset 3 1); lia. Defined.

(** ** The permutation weights *)

Lemma factorial_of_nat (n : nat) : factorial (Z.of_nat n) = Ok (Z.of_nat (fact n)).
Proof.
  unfold factorial. rewrite bool_decide_eq_false_2 by lia. by rewrite Nat2Z.id.
Qed.

Lemma factorial_neg (n : Z) : n < 0 → factorial n = Raise ValueError.
Proof. intros. unfold factorial. by rewrite bool_decide_eq_true_2. Qed.

Lemma fact_pos (n : nat) : (0 < fact n)%nat.
Proof. apply Nat.neq_0_lt_0, fact_neq_0. Qed.

Lemma _permutation_factor_value (K s : nat) :
  (s ≤ K)%nat →
  _permutation_factor (Z.of_nat (S K)) (Z.of_nat s) = Ok (Fin (weightQc K s)).
Proof.
  intros Hs. unfold _permutation_factor.
  replace (Z.of_nat (S K) - Z.of_nat s - 1) with (Z.of_nat (K - s)) by lia.
  rewrite !factorial_of_nat. unfold mbind, result_bind, truediv.
  rewrite bool_decide_eq_false_2; [done|]. pose proof (fact_pos (S K)). lia.
Qed.




Lemma sumQc_cons (x : Qc) (l : list Qc) : sumQc (x :: l) = (x + sumQc l)%Qc.
Proof. done. Qed.

Lemma sumQc_app (l1 l2 : list Qc) : sumQc (l1 ++ l2) = (sumQc l1 + sumQc l2)%Qc.
Proof.
  induction l1 as [|x l1 IH]; [by rewrite app_nil_l, Qcplus_0_l|].
  rewrite <-app_comm_cons, !sumQc_cons, IH. ring.
Qed.

Lemma sumQc_const {A : Type} (c : Qc) (l : list A) :
  sumQc ((λ _, c) <$> l) = (Qc_of_Z (Z.of_nat (length l)) * c)%Qc.
Proof.
  induction l as [|x l IH].
  - change (Qc_of_Z (Z.of_nat (length [])) * c)%Qc with (Qc_of_Z 0 * c)%Qc.
    rewrite Z2Qc_inj_0. cbn. ring.
  - rewrite fmap_cons, length_cons, Nat2Z.inj_succ.
    rewrite sumQc_cons, IH.
    rewrite <-Z.add_1_r, Z2Qc_inj_add, Z2Qc_inj_1. ring.
Qed.

Lemma sumQc_bind {A B : Type} (g : B → Qc) (f : A → list B) (l : list A) :
  sumQc (g <$> (l ≫= f)) = sumQc ((λ x, sumQc (g <$> f x)) <$> l).
Proof.
  induction l as [|x l IH]; [done|].
  csimpl. by rewrite fmap_app, sumQc_app, IH.
Qed.






(** C9, as the code has it: with M <= 0 the weight calculator raises
    ValueError (from math.factorial) for every coalition size, and the
    enumerator raises nothing and yields the empty coalition alone. *)
Theorem nonpositive_feature_count (M : Z) :
  M ≤ 0 →
  (∀ s, _permutation_factor M s = Raise ValueError) ∧
  (∀ f, _get_all_other_feature_subsets M f = [[]]).
Proof.
  intros HM. split.
  - intros s. unfold _permutation_factor.
    destruct (decide (s < 0)) as [Hs|Hs].
    + by rewrite (factorial_neg s).
    + rewrite <-(Z2Nat.id s) by lia. rewrite factorial_of_nat.
      rewrite (factorial_neg (M - _ - 1)) by lia. done.
  - intros f. unfold _get_all_other_feature_subsets. by rewrite range_nonpos.
Qed.

Lemma nonpositive_feature_count_witness :
  (∀ s, _permutation_factor 0 s = Raise ValueError) ∧
  (∀ f, _get_all_other_feature_subsets 0 f = [[]]).
Proof. apply (nonpositive_feature_count 0). lia. Defined.

(** C9 as stated fails for the enumerator: with M = 0 (and with M = -2) it
    returns, and yields one coalition. *)
Lemma enumerator_returns_for_zero_features :
  _get_all_other_feature_subsets 0 0 = [[]] ∧
  _get_all_other_feature_subsets (-2) 0 = [[]].
Proof. split; reflexivity. Qed.

(** ** Running the methods on a store *)

Section runs.
Implicit Types (σ k : store) (a : ndarray).

Lemma load_cell σ a k : load (length σ) (σ ++ a :: k) = (Ok a, σ ++ a :: k).
Proof. unfold load. by rewrite list_lookup_middle. Qed.

Lemma load_old σ k l a : σ !! l = Some a → load l (σ ++ k) = (Ok a, σ ++ k).
Proof. intros H. unfold load. by rewrite (lookup_app_l_Some _ _ _ _ H). Qed.

Lemma store_at_cell σ a a' k :
  store_at (length σ) a' (σ ++ a :: k) = (Ok (), σ ++ a' :: k).
Proof.
  unfold store_at. rewrite bool_decide_eq_true_2.
  - by rewrite insert_app_r_alt, Nat.sub_diag by lia.
  - rewrite length_app. simpl. lia.
Qed.

(** A loop that updates one array of the store in place computes, on that
    array, the fold of what its body computes. *)
Lemma for_each_cell {A : Type} (body : A → Py unit)
    (step : ndarray → A → result ndarray) σ (l : list A) :
  (∀ x a k, ∃ a' k',
     body x (σ ++ a :: k) = ((λ _, ()) <$> step a x, σ ++ a' :: k') ∧
     ∀ d, step a x = Ok d → a' = d) →
  ∀ a k, ∃ a' k',
    for_each l body (σ ++ a :: k)
    = ((λ _, ()) <$> fold_result step l a, σ ++ a' :: k') ∧
    ∀ d, fold_result step l a = Ok d → a' = d.
Proof.
  intros Hbody. induction l as [|x l IH]; intros a k.
  - exists a, k. split; [done|]. by intros d [= <-].
  - destruct (Hbody x a k) as (a1 & k1 & Hrun & Hval).
    cbn [for_each fold_result]. unfold mbind at 1, Py_bind. rewrite Hrun.
    destruct (step a x) as [d|e]; simpl.
    + rewrite (Hval d eq_refl).
      destruct (IH d k1) as (a2 & k2 & Hrun2 & Hval2). by exists a2, k2.
    + by exists a1, k1.
Qed.
End runs.

Section method_runs.
Implicit Types (σ k : store) (a : ndarray).

Lemma bind_run {A B : Type} (m : Py A) (f : A → Py B) σ r σ' :
  m σ = (r, σ') →
  (m ≫= f) σ = match r with Ok x => f x σ' | Raise e => (Raise e, σ') end.
Proof. intros H. unfold mbind, Py_bind. rewrite H. by destruct r. Qed.

Lemma for_fold_run {A B : Type} (body : B → A → Py B)
    (step : B → A → result B) σ (l : list A) :
  (∀ acc x k, ∃ k', body acc x (σ ++ k) = (step acc x, σ ++ k')) →
  ∀ acc k, ∃ k', for_fold l acc body (σ ++ k) = (fold_result step l acc, σ ++ k').
Proof.
  intros Hbody. induction l as [|x l IH]; intros acc k.
  - by exists k.
  - destruct (Hbody acc x k) as (k1 & Hrun).
    cbn [for_fold fold_result]. rewrite (bind_run _ _ _ _ _ Hrun).
    destruct (step acc x) as [acc'|e]; simpl; [apply IH|by exists k1].
Qed.

Lemma setcol_at_run σ j v a k :
  ∃ a', setcol_at (length σ) j v (σ ++ a :: k)
        = ((λ _, ()) <$> setcol a j v, σ ++ a' :: k) ∧
        ∀ d, setcol a j v = Ok d → a' = d.
Proof.
  unfold setcol_at. rewrite (bind_run _ _ _ _ _ (load_cell σ a k)).
  unfold lift at 1. unfold mbind at 1, Py_bind.
  destruct (setcol a j v) as [d|e]; simpl.
  - exists d. split; [apply store_at_cell|by intros ? [= <-]].
  - by exists a.
Qed.

Lemma setitem_at_run σ i j x a k :
  ∃ a', setitem_at (length σ) i j x (σ ++ a :: k)
        = ((λ _, ()) <$> setitem a i j x, σ ++ a' :: k) ∧
        ∀ d, setitem a i j x = Ok d → a' = d.
Proof.
  unfold setitem_at. rewrite (bind_run _ _ _ _ _ (load_cell σ a k)).
  unfold lift at 1. unfold mbind at 1, Py_bind.
  destruct (setitem a i j x) as [d|e]; simpl.
  - exists d. split; [apply store_at_cell|by intros ? [= <-]].
  - by exists a.
Qed.

Lemma _subset_model_approximation_run self feature_subset instance σ bg :
  σ !! background_dataset self = Some bg →
  ∃ k, _subset_model_approximation self feature_subset instance σ
       = (subset_model_value self bg feature_subset instance, σ ++ k).
Proof.
  intros Hbg. unfold _subset_model_approximation, deepcopy.
  pose proof (load_old σ [] _ _ Hbg) as Hload. rewrite app_nil_r in Hload.
  rewrite (bind_run _ _ _ _ _ (bind_run _ _ _ _ _ Hload)).
  unfold len_at.
  rewrite (bind_run _ _ _ _ _ (bind_run _ _ _ _ _ (load_cell σ bg []))).
  assert (∀ j a k, ∃ a' k',
    (if bool_decide (j ∈ feature_subset)
     then v ← lift (getitem1 instance j); setcol_at (length σ) j v
     else mret ()) (σ ++ a :: k)
    = ((λ _, ()) <$> overwrite_column feature_subset instance a j, σ ++ a' :: k')
    ∧ ∀ d, overwrite_column feature_subset instance a j = Ok d → a' = d)
    as Hbody.
  { intros j a k. unfold overwrite_column. case_bool_decide.
    - unfold lift. unfold mbind at 1, Py_bind.
      destruct (getitem1 instance j) as [v|e]; simpl.
      + destruct (setcol_at_run σ j v a k) as (a' & ? & ?). by exists a', k.
      + by exists a, k.
    - exists a, k. split; [done|]. by intros d [= <-]. }
  destruct (for_each_cell
    (λ j, if bool_decide (j ∈ feature_subset)
          then v ← lift (getitem1 instance j); setcol_at (length σ) j v
          else mret ())
    _ σ (range2 0 (Z.of_nat (nrows bg) - 1)) Hbody bg [])
    as (a' & k' & Hrun & Hval).
  rewrite (bind_run _ _ _ _ _ Hrun).
  unfold subset_model_value, overwrite_columns.
  destruct (fold_result _ _ bg) as [d|e]; simpl.
  - rewrite (Hval d eq_refl), (bind_run _ _ _ _ _ (load_cell σ d k')).
    by exists (d :: k').
  - by exists (a' :: k').
Qed.

Lemma _compute_single_shapley_value_run self feature instance σ bg :
  σ !! background_dataset self = Some bg →
  ∃ k, _compute_single_shapley_value self feature instance σ
       = (single_shapley_value self bg feature instance, σ ++ k).
Proof.
  intros Hbg. unfold _compute_single_shapley_value, single_shapley_value.
  pose proof (for_fold_run
    (λ accumulator S,
      without_feature ← _subset_model_approximation self S instance;
      with_feature ← _subset_model_approximation self (S ++ [feature]) instance;
      weight ← lift (_permutation_factor (len1 instance) (Z.of_nat (length S)));
      mret (fadd accumulator (fmul weight (fsub with_feature without_feature))))
    (marginal_step self bg (len1 instance) feature instance) σ
    (_get_all_other_feature_subsets (len1 instance) feature)) as Hfold.
  match type of Hfold with ?P → _ => assert P as Hbody end.
  - intros acc S k. unfold marginal_step.
    destruct (_subset_model_approximation_run self S instance (σ ++ k) bg)
      as (k1 & Hrun1); [by apply lookup_app_l_Some|].
    rewrite (bind_run _ _ _ _ _ Hrun1), <-(assoc_L (++)).
    destruct (subset_model_value self bg S instance) as [without|e]; simpl;
      [|by eexists].
    destruct (_subset_model_approximation_run self (S ++ [feature]) instance
                (σ ++ k ++ k1) bg) as (k2 & Hrun2); [by apply lookup_app_l_Some|].
    rewrite (bind_run _ _ _ _ _ Hrun2), <-(assoc_L (++)).
    destruct (subset_model_value self bg (S ++ [feature]) instance)
      as [with_|e]; simpl; [|by eexists].
    unfold lift, mbind at 1, Py_bind.
    destruct (_permutation_factor _ _); by eexists.
  - destruct (Hfold Hbody (float_of_int 0) []) as (k & Hrun).
    rewrite app_nil_r in Hrun. by exists k.
Qed.
End method_runs.

Section aggregator_run.
Implicit Types (σ k : store) (a : ndarray).

Lemma fill_cell_run self X σ x bg (i j : Z) o k :
  σ !! X = Some x → σ !! background_dataset self = Some bg →
  ∃ o' k',
    (Xi ← getrow_at X i;
     v ← _compute_single_shapley_value self j Xi;
     setitem_at (length σ) i j v) (σ ++ o :: k)
    = ((λ _, ()) <$> fill_cell self bg x i o j, σ ++ o' :: k') ∧
    ∀ d, fill_cell self bg x i o j = Ok d → o' = d.
Proof.
  intros HX Hbg. unfold getrow_at, fill_cell.
  rewrite (bind_run _ _ _ _ _ (bind_run _ _ _ _ _ (load_old σ (o :: k) _ _ HX))).
  destruct (getrow x i) as [Xi|e]; simpl; [|by exists o, k].
  destruct (_compute_single_shapley_value_run self j Xi (σ ++ o :: k) bg)
    as (k1 & Hrun); [by apply lookup_app_l_Some|].
  rewrite (bind_run _ _ _ _ _ Hrun), <-(assoc_L (++)), <-app_comm_cons.
  destruct (single_shapley_value self bg j Xi) as [v|e]; simpl;
    [|by exists o, (k ++ k1)].
  destruct (setitem_at_run σ i j v o (k ++ k1)) as (o' & ? & ?).
  by exists o', (k ++ k1).
Qed.

Lemma shapley_values_run self X σ x bg :
  σ !! X = Some x → σ !! background_dataset self = Some bg →
  ∃ o k,
    shapley_values self X σ
    = ((λ _, length σ) <$> fill_all self bg x, σ ++ o :: k) ∧
    ∀ d, fill_all self bg x = Ok d → o = d.
Proof.
  intros HX Hbg. unfold shapley_values, zeros_like_at, shape_at.
  pose proof (load_old σ [] _ _ HX) as Hload. rewrite app_nil_r in Hload.
  rewrite (bind_run _ _ _ _ _ (bind_run _ _ _ _ _ Hload)).
  rewrite (bind_run _ _ _ _ _
             (bind_run _ _ _ _ _ (load_old σ [zeros_like x] _ _ HX))).
  destruct (for_each_cell
    (λ i, for_each (range (Z.of_nat (ncols x))) (λ j,
       Xi ← getrow_at X i;
       v ← _compute_single_shapley_value self j Xi;
       setitem_at (length σ) i j v))
    (fill_row self bg x) σ (range (Z.of_nat (nrows x))))
    with (a := zeros_like x) (k := @nil ndarray) as (o & k & Hrun & Hval).
  { intros i o k. unfold fill_row. apply for_each_cell.
    intros j o1 k1. by apply fill_cell_run. }
  rewrite (bind_run _ _ _ _ _ Hrun). unfold fill_all.
  exists o, k. destruct (fold_result _ _ (zeros_like x)); by simpl.
Qed.
End aggregator_run.

(** ** The background dataset is read, never written *)

(** C6: with the background dataset in the store, [shapley_values], and
    [_compute_single_shapley_value] and [_subset_model_approximation] which
    it calls, leave every array that was in the store as it was, the
    background dataset among them, whether they return or raise; the array
    that is written is the copy, a new object. *)
Theorem background_dataset_never_mutated self σ bg :
  σ !! background_dataset self = Some bg →
  (∀ X, σ `prefix_of` (shapley_values self X σ).2 ∧
        (shapley_values self X σ).2 !! background_dataset self = Some bg) ∧
  (∀ feature instance,
     σ `prefix_of` (_compute_single_shapley_value self feature instance σ).2 ∧
     (_compute_single_shapley_value self feature instance σ).2
       !! background_dataset self = Some bg) ∧
  (∀ feature_subset instance,
     σ `prefix_of` (_subset_model_approximation self feature_subset instance σ).2 ∧
     (_subset_model_approximation self feature_subset instance σ).2
       !! background_dataset self = Some bg) ∧
  deepcopy (background_dataset self) σ = (Ok (length σ), σ ++ [bg]) ∧
  length σ ≠ background_dataset self.
Proof.
  intros Hbg.
  assert (∀ σ' : store, σ `prefix_of` σ' →
            σ `prefix_of` σ' ∧ σ' !! background_dataset self = Some bg) as Hpre.
  { intros σ' Hσ'. split; [done|]. by eapply prefix_lookup_Some. }
  split_and!.
  - intros X. apply Hpre. destruct (σ !! X) as [x|] eqn:HX.
    + destruct (shapley_values_run self X σ x bg HX Hbg) as (o & k & -> & _).
      by apply prefix_app_r.
    + unfold shapley_values, zeros_like_at, load, mbind, Py_bind. by rewrite HX.
  - intros feature instance. apply Hpre.
    destruct (_compute_single_shapley_value_run self feature instance σ bg Hbg)
      as (k & ->). by apply prefix_app_r.
  - intros feature_subset instance. apply Hpre.
    destruct (_subset_model_approximation_run self feature_subset instance σ bg Hbg)
      as (k & ->). by apply prefix_app_r.
  - unfold deepcopy, load, mbind, Py_bind. by rewrite Hbg.
  - apply lookup_lt_Some in Hbg. lia.
Qed.

Lemma background_dataset_never_mutated_witness :
  (∀ X, store_int `prefix_of` (shapley_values linear_explainer X store_int).2 ∧
        (shapley_values linear_explainer X store_int).2
          !! background_dataset linear_explainer = Some background_int) ∧
  (∀ feature instance,
     store_int `prefix_of`
       (_compute_single_shapley_value linear_explainer feature instance store_int).2 ∧
     (_compute_single_shapley_value linear_explainer feature instance store_int).2
       !! background_dataset linear_explainer = Some background_int) ∧
  (∀ feature_subset instance,
     store_int `prefix_of`
       (_subset_model_approximation linear_explainer feature_subset instance store_int).2 ∧
     (_subset_model_approximation linear_explainer feature_subset instance store_int).2
       !! background_dataset linear_explainer = Some background_int) ∧
  deepcopy (background_dataset linear_explainer) store_int
    = (Ok (length store_int), store_int ++ [background_int]) ∧
  length store_int ≠ background_dataset linear_explainer.
Proof.
  apply (background_dataset_never_mutated linear_explainer store_int background_int).
  reflexivity.
Defined.

(** ** The predictions of the model are averaged as they come *)

(** C5 as stated fails: a model that answers one prediction for the two rows
    it is given raises no error; the approximator returns that prediction
    as the mean, and [shapley_values] returns an array. *)
Lemma mismatched_prediction_count_accepted :
  length (model one_prediction_explainer background_int) ≠ nrows background_int ∧
  (_subset_model_approximation one_prediction_explainer [] (IntVec [4; 6]) store_int).1
    = Ok (float_of_int 7) ∧
  (shapley_values one_prediction_explainer 1%nat store_int).1 = Ok 2%nat ∧
  (shapley_values one_prediction_explainer 1%nat store_int).2 !! 2%nat
    = Some (IntArray [[0; 0]]).
Proof. split_and!; by_evaluation. Qed.

(** C5, as the code has it: when the model returns a number of predictions
    other than the number of rows of the dataset it was given, no error is
    raised on that account; [_subset_model_approximation] returns the mean
    of the predictions that were returned. *)
Theorem mismatched_prediction_count_averaged self feature_subset instance σ bg d :
  σ !! background_dataset self = Some bg →
  overwrite_columns feature_subset instance bg = Ok d →
  length (model self d) ≠ nrows d →
  (_subset_model_approximation self feature_subset instance σ).1
    = Ok (np_mean (model self d)).
Proof.
  intros Hbg Hd _.
  destruct (_subset_model_approximation_run self feature_subset instance σ bg Hbg)
    as (k & ->).
  unfold subset_model_value. by rewrite Hd.
Qed.

Lemma mismatched_prediction_count_averaged_witness :
  (_subset_model_approximation one_prediction_explainer [0] (IntVec [4; 6]) store_int).1
    = Ok (np_mean (model one_prediction_explainer (IntArray [[4; 0]; [4; 2]]))).
Proof.
  apply (mismatched_prediction_count_averaged one_prediction_explainer [0]
           (IntVec [4; 6]) store_int background_int (IntArray [[4; 0]; [4; 2]])).
  - reflexivity.
  - vm_compute. reflexivity.
  - vm_compute. lia.
Defined.

(** ** The bound of the overwriting loop *)

Lemma fold_result_invariant {A B : Type} (step : B → A → result B)
    (I : list A → B → Prop) (l : list A) (b b' : B) :
  I [] b →
  (∀ done x b1 b2, I done b1 → x ∈ l → step b1 x = Ok b2 → I (done ++ [x]) b2) →
  fold_result step l b = Ok b' → I l b'.
Proof.
  intros Hinit Hstep.
  assert (∀ rest done b1, done ++ rest = l → I done b1 →
            fold_result step rest b1 = Ok b' → I l b') as Hgen.
  { induction rest as [|x rest IH]; intros done b1 Hl Hdone Hrun.
    - rewrite app_nil_r in Hl. injection Hrun as <-. by subst.
    - cbn [fold_result] in Hrun. destruct (step b1 x) as [b2|e] eqn:Hx; [|done].
      apply (IH (done ++ [x]) b2); [by rewrite <-(assoc_L (++))| |done].
      apply (Hstep done x b1 b2); [done| |done].
      rewrite <-Hl. apply elem_of_app. right. by left. }
  by apply (Hgen l [] b).
Qed.

Lemma fold_result_ext {A B : Type} (step1 step2 : B → A → result B)
    (l : list A) (b : B) :
  (∀ b' x, x ∈ l → step1 b' x = step2 b' x) →
  fold_result step1 l b = fold_result step2 l b.
Proof.
  revert b. induction l as [|x l IH]; intros b Hext; [done|].
  cbn [fold_result]. rewrite (Hext b x) by by left.
  destruct (step2 b x) as [b'|e]; [|done]. simpl.
  apply IH. intros b'' y Hy. apply Hext. by right.
Qed.

(** The loop looks at the indices below the number of rows less one, and at
    no other: two coalitions that agree on these give the same dataset. *)
Lemma overwrite_columns_ext (S1 S2 : list Z) instance bg :
  (∀ j, 0 ≤ j < Z.of_nat (nrows bg) - 1 → j ∈ S1 ↔ j ∈ S2) →
  overwrite_columns S1 instance bg = overwrite_columns S2 instance bg.
Proof.
  intros Hagree. unfold overwrite_columns. apply fold_result_ext.
  intros a j Hj%elem_of_seqZ. unfold overwrite_column.
  by rewrite (bool_decide_ext _ _ (Hagree j ltac:(lia))).
Qed.

(** For the empty coalition the approximator returns the mean prediction
    over the background dataset as it is. *)
Lemma subset_model_approximation_empty_coalition self instance σ bg :
  σ !! background_dataset self = Some bg →
  (_subset_model_approximation self [] instance σ).1
    = Ok (np_mean (model self bg)).
Proof.
  intros Hbg.
  destruct (_subset_model_approximation_run self [] instance σ bg Hbg) as (k & ->).
  unfold subset_model_value, overwrite_columns. simpl.
  assert (∀ l a, fold_result (overwrite_column [] instance) l a = Ok a) as ->; [|done].
  induction l as [|j l IH]; intros a; [done|].
  cbn [fold_result].
  assert (overwrite_column [] instance a j = Ok a) as ->; [|apply IH].
  unfold overwrite_column. by rewrite bool_decide_eq_false_2 by apply not_elem_of_nil.
Qed.

(** An index of the coalition at or above the number of rows less one is
    ignored: the approximator returns what it returns without it. *)
Lemma subset_model_approximation_ignores_high_index
    self (feature_subset : list Z) (f : Z) instance σ bg :
  σ !! background_dataset self = Some bg →
  Z.of_nat (nrows bg) - 1 ≤ f →
  (_subset_model_approximation self (feature_subset ++ [f]) instance σ).1
  = (_subset_model_approximation self feature_subset instance σ).1.
Proof.
  intros Hbg Hf.
  destruct (_subset_model_approximation_run self (feature_subset ++ [f])
              instance σ bg Hbg) as (k1 & ->).
  destruct (_subset_model_approximation_run self feature_subset
              instance σ bg Hbg) as (k2 & ->).
  unfold subset_model_value. simpl. f_equal. apply overwrite_columns_ext.
  intros j Hj. rewrite elem_of_app, list_elem_of_singleton.
  split; [|by left]. intros [?| ->]; [done|lia].
Qed.

(** A feature whose index is at or above the number of background rows
    less one is never overwritten, so each of its marginal contributions
    vanishes: a Shapley value returned for it is 0 or NaN, whatever the
    model. *)
Lemma shapley_value_of_high_feature self (feature : Z) instance σ bg q :
  σ !! background_dataset self = Some bg →
  Z.of_nat (nrows bg) - 1 ≤ feature →
  (_compute_single_shapley_value self feature instance σ).1 = Ok (Fin q) →
  q = 0%Qc.
Proof.
  intros Hbg Hf.
  destruct (_compute_single_shapley_value_run self feature instance σ bg Hbg)
    as (k & ->). simpl. unfold single_shapley_value. intros Hrun.
  assert (Fin q = Fin 0%Qc ∨ Fin q = NaN) as [[= ->]|?]; [|done..].
  revert Hrun.
  apply (fold_result_invariant _ (λ _ acc, acc = Fin 0%Qc ∨ acc = NaN)).
  - left. unfold float_of_int. by rewrite Z2Qc_inj_0.
  - intros _ S acc acc' Hacc _. unfold marginal_step.
    assert (subset_model_value self bg (S ++ [feature]) instance
            = subset_model_value self bg S instance) as ->.
    { unfold subset_model_value. f_equal. apply overwrite_columns_ext.
      intros j Hj. rewrite elem_of_app, list_elem_of_singleton.
      split; [|by left]. intros [?| ->]; [done|lia]. }
    destruct (subset_model_value self bg S instance) as [v|]; [|done]. simpl.
    destruct (_permutation_factor _ _) as [w|]; [|done]. simpl. intros [= <-].
    destruct Hacc as [-> | ->], w as [w|], v as [v|]; simpl; auto.
    left. f_equal. ring.
Qed.

(** ** The scenario of the specification *)

(** C1 fails on the code: with the coalition (1,), the instance [4, 6] and
    the two-row background [[0,0],[2,2]] the loop runs over j = 0 only
    (range(0, len(dataset) - 1), the number of rows less one), so column 1
    keeps its background values and the mean is 5; the dataset that the
    specification describes is [[0,6],[2,6]], with mean 20. *)
Theorem subset_model_approximation_skips_column :
  _subset_model_approximation linear_explainer [1] (IntVec [4; 6]) store_int
    = (Ok (float_of_int 5), store_int ++ [IntArray [[0; 0]; [2; 2]]]) ∧
  spec_synthetic_dataset [1] (IntVec [4; 6]) background_int
    = Ok (IntArray [[0; 6]; [2; 6]]) ∧
  spec_subset_model_value linear_explainer background_int [1] (IntVec [4; 6])
    = Ok (float_of_int 20).
Proof. split_and!; by_evaluation. Qed.

(** C3 fails on the code: in the scenario of the specification
    [shapley_values] returns [[6, 0]], with int64 as with float64 entries:
    feature 1 gets 0, not 15. *)
Theorem shapley_values_linear_scenario :
  (shapley_values linear_explainer 1%nat store_int).1 = Ok 2%nat ∧
  (shapley_values linear_explainer 1%nat store_int).2 !! 2%nat
    = Some (IntArray [[6; 0]]) ∧
  (shapley_values linear_explainer 1%nat store_float).1 = Ok 2%nat ∧
  (shapley_values linear_explainer 1%nat store_float).2 !! 2%nat
    = Some (FloatArray [[float_of_int 6; float_of_int 0]]).
Proof. split_and!; by_evaluation. Qed.

(** C2 fails on the code: in the same scenario, with float64 entries, the
    Shapley values of the instance sum to 6, while the prediction on the
    instance less the mean prediction on the background is 26 - 5 = 21. *)
Theorem shapley_values_not_efficient :
  (shapley_values linear_explainer 1%nat store_float).2 !! 2%nat
    = Some (FloatArray [[float_of_int 6; float_of_int 0]]) ∧
  fsum [float_of_int 6; float_of_int 0] = float_of_int 6 ∧
  model linear_explainer X_float = [float_of_int 26] ∧
  np_mean (model linear_explainer background_float) = float_of_int 5 ∧
  fsub (float_of_int 26) (float_of_int 5) = float_of_int 21 ∧
  float_of_int 6 ≠ float_of_int 21.
Proof. split_and!; by_evaluation. Qed.

(** ** The sum of the Shapley values when the loop reaches every column *)

Section efficiency.
Local Open Scope Qc_scope.

Lemma sumQc_fmap_plus {A : Type} (g h : A → Qc) (l : list A) :
  sumQc ((λ x, g x + h x) <$> l) = sumQc (g <$> l) + sumQc (h <$> l).
Proof.
  induction l as [|x l IH]; [by rewrite !Qcplus_0_l|].
  rewrite !fmap_cons, !sumQc_cons, IH. ring.
Qed.

Lemma sumQc_fmap_scale {A : Type} (c : Qc) (g : A → Qc) (l : list A) :
  sumQc ((λ x, c * g x) <$> l) = c * sumQc (g <$> l).
Proof.
  induction l as [|x l IH]; [cbn; ring|].
  rewrite !fmap_cons, !sumQc_cons, IH. ring.
Qed.

Lemma sumQc_fmap_ext {A : Type} (g h : A → Qc) (l : list A) :
  (∀ x, x ∈ l → g x = h x) → sumQc (g <$> l) = sumQc (h <$> l).
Proof.
  intros Hext. f_equal. apply Forall_fmap_ext, Forall_forall. done.
Qed.

Lemma sumQc_fmap_zero {A : Type} (l : list A) : sumQc ((λ _, 0) <$> l) = 0.
Proof. rewrite sumQc_const. ring. Qed.

Lemma sumQc_swap {A B : Type} (g : A → B → Qc) (l1 : list A) (l2 : list B) :
  sumQc ((λ a, sumQc (g a <$> l2)) <$> l1)
  = sumQc ((λ b, sumQc ((λ a, g a b) <$> l1)) <$> l2).
Proof.
  induction l1 as [|a l1 IH].
  - cbn [fmap list_fmap]. by rewrite sumQc_fmap_zero.
  - rewrite fmap_cons, sumQc_cons, IH.
    rewrite <-sumQc_fmap_plus. apply sumQc_fmap_ext. intros b _.
    by rewrite fmap_cons, sumQc_cons.
Qed.

Lemma filter_ne_absent (x : Z) (l : list Z) :
  x ∉ l → filter (λ i, i ≠ x) l = l.
Proof.
  induction l as [|y l IH]; [done|]. intros [Hne Hl]%not_elem_of_cons.
  rewrite filter_cons_True by done. by rewrite IH.
Qed.

(** Every coalition of size s is the coalition without f for each of the
    features f outside it. *)
Lemma coalitions_without (N : list Z) (s : nat) (u : list Z → Qc) :
  NoDup N →
  sumQc ((λ f, sumQc (u <$> combinations (filter (λ i, i ≠ f) N) s)) <$> N)
  = (Qc_of_Z (Z.of_nat (length N)) - Qc_of_Z (Z.of_nat s))
    * sumQc (u <$> combinations N s).
Proof.
  intros Hnd. revert s u. induction Hnd as [|x N Hx Hnd IH]; intros s u.
  - destruct s; cbn; ring.
  - rewrite fmap_cons, sumQc_cons.
    rewrite filter_cons_False by (by intros []).
    rewrite filter_ne_absent by done.
    rewrite (sumQc_fmap_ext _
      (λ f : Z, sumQc (u <$> combinations (x :: filter (λ i, i ≠ f) N) s)) N).
    2:{ intros f Hf. rewrite filter_cons_True; [done|]. by intros ->. }
    rewrite length_cons, Nat2Z.inj_succ, <-Z.add_1_r, Z2Qc_inj_add, Z2Qc_inj_1.
    destruct s as [|s].
    + rewrite combinations_0. cbn [combinations].
      rewrite sumQc_const. change (Z.of_nat 0) with 0%Z. rewrite Z2Qc_inj_0. ring.
    + cbn [combinations].
      rewrite (sumQc_fmap_ext _
        (λ f : Z, sumQc ((u ∘ (x ::.)) <$> combinations (filter (λ i, i ≠ f) N) s)
              + sumQc (u <$> combinations (filter (λ i, i ≠ f) N) (S s))) N).
      2:{ intros f _. by rewrite fmap_app, sumQc_app, <-list_fmap_compose. }
      rewrite sumQc_fmap_plus, !IH, fmap_app, sumQc_app, <-list_fmap_compose.
      rewrite (Nat2Z.inj_succ s), <-Z.add_1_r, Z2Qc_inj_add, Z2Qc_inj_1. ring.
Qed.

Lemma coalition_invariant_cons (u : list Z → Qc) (x : Z) :
  coalition_invariant u → coalition_invariant (u ∘ (x ::.)).
Proof.
  intros Hu S1 S2 H. apply Hu. intros y. rewrite !elem_of_cons.
  by rewrite H.
Qed.

(** Every coalition of size s + 1 is the coalition S with f added for each
    of its s + 1 features f. *)
Lemma coalitions_with (N : list Z) (s : nat) (u : list Z → Qc) :
  NoDup N → coalition_invariant u →
  sumQc ((λ f, sumQc ((λ S, u (S ++ [f]))
                        <$> combinations (filter (λ i, i ≠ f) N) s)) <$> N)
  = (Qc_of_Z (Z.of_nat s) + 1) * sumQc (u <$> combinations N (S s)).
Proof.
  intros Hnd. revert s u. induction Hnd as [|x N Hx Hnd IH]; intros s u Hu.
  - cbn. ring.
  - rewrite fmap_cons, sumQc_cons.
    rewrite filter_cons_False by (by intros []).
    rewrite filter_ne_absent by done.
    rewrite (sumQc_fmap_ext (λ S, u (S ++ [x])) (u ∘ (x ::.))).
    2:{ intros S _. apply Hu. intros y.
        rewrite elem_of_app, list_elem_of_singleton, elem_of_cons. tauto. }
    rewrite (sumQc_fmap_ext _
      (λ f : Z, sumQc ((λ S, u (S ++ [f]))
                         <$> combinations (x :: filter (λ i, i ≠ f) N) s)) N).
    2:{ intros f Hf. rewrite filter_cons_True; [done|]. by intros ->. }
    cbn [combinations]. rewrite fmap_app, sumQc_app, <-list_fmap_compose.
    destruct s as [|s].
    + cbn [combinations].
      specialize (IH 0%nat u Hu).
      rewrite (sumQc_fmap_ext _
        (λ f : Z, sumQc ((λ S, u (S ++ [f])) <$> [[]])) N) in IH.
      2:{ intros f _. by rewrite combinations_0. }
      rewrite IH, combinations_0. change (Z.of_nat 0) with 0%Z.
      rewrite Z2Qc_inj_0. cbn. ring.
    + cbn [combinations].
      rewrite (sumQc_fmap_ext _
        (λ f : Z,
           sumQc ((λ S, (u ∘ (x ::.)) (S ++ [f]))
                    <$> combinations (filter (λ i, i ≠ f) N) s)
           + sumQc ((λ S, u (S ++ [f]))
                      <$> combinations (filter (λ i, i ≠ f) N) (S s))) N).
      2:{ intros f _. by rewrite fmap_app, sumQc_app, <-list_fmap_compose. }
      rewrite sumQc_fmap_plus.
      rewrite (IH s (u ∘ (x ::.))) by by apply coalition_invariant_cons.
      rewrite (IH (S s) u) by done.
      rewrite (Nat2Z.inj_succ s), <-Z.add_1_r, Z2Qc_inj_add, Z2Qc_inj_1. ring.
Qed.

Lemma combinations_all {A : Type} (l : list A) : combinations l (length l) = [l].
Proof.
  induction l as [|x l IH]; [done|]. cbn [length combinations].
  rewrite IH. assert (combinations l (S (length l)) = []) as ->; [|done].
  apply length_zero_iff_nil. rewrite length_combinations. apply binom_gt. lia.
Qed.

Lemma sumQc_telescope (t : nat → Qc) (n : nat) :
  sumQc ((λ r, t (S r) - t r) <$> seq 0 n) = t n - t 0%nat.
Proof.
  induction n as [|n IH]; [cbn; ring|].
  rewrite seq_S, fmap_app, sumQc_app, IH. cbn. ring.
Qed.

Lemma Qc_of_nat_ne_0 (n : nat) : (0 < n)%nat → Qc_of_Z (Z.of_nat n) ≠ 0.
Proof. intros Hn. rewrite <-Z2Qc_inj_0. intros ?%Z2Qc_inj. lia. Qed.

Lemma weightQc_with (K r : nat) :
  weightQc K r * (Qc_of_Z (Z.of_nat r) + 1) = sizeQc K (S r).
Proof.
  unfold weightQc, sizeQc. replace (S K - S r)%nat with (K - r)%nat by lia.
  change (fact (S r)) with (S r * fact r)%nat.
  rewrite !Nat2Z.inj_mul, !Z2Qc_inj_mul, Nat2Z.inj_succ, <-Z.add_1_r,
    Z2Qc_inj_add, Z2Qc_inj_1.
  field. apply Qc_of_nat_ne_0, fact_pos.
Qed.

Lemma weightQc_without (K r : nat) :
  (r ≤ K)%nat →
  weightQc K r * (Qc_of_Z (Z.of_nat (S K)) - Qc_of_Z (Z.of_nat r)) = sizeQc K r.
Proof.
  intros Hr. unfold weightQc, sizeQc.
  replace (S K - r)%nat with (S (K - r)) by lia.
  change (fact (S (K - r))) with (S (K - r) * fact (K - r))%nat.
  rewrite <-Z2Qc_inj_sub.
  replace (Z.of_nat (S K) - Z.of_nat r)%Z with (Z.of_nat (S (K - r))) by lia.
  rewrite !Nat2Z.inj_mul, !Z2Qc_inj_mul.
  field. apply Qc_of_nat_ne_0, fact_pos.
Qed.

Lemma sizeQc_0 (K : nat) : sizeQc K 0 = 1.
Proof.
  unfold sizeQc. rewrite Nat.sub_0_r. change (Z.of_nat (fact 0)) with 1%Z.
  rewrite Z.mul_1_l. apply Qcmult_inv_r, Qc_of_nat_ne_0, fact_pos.
Qed.

Lemma sizeQc_all (K : nat) : sizeQc K (S K) = 1.
Proof.
  unfold sizeQc. rewrite Nat.sub_diag. change (Z.of_nat (fact 0)) with 1%Z.
  rewrite Z.mul_1_r. apply Qcmult_inv_r, Qc_of_nat_ne_0, fact_pos.
Qed.

(** The Shapley values of all the features sum to the value of the full
    coalition less the value of the empty one. *)
Lemma shapley_sum (K : nat) (N : list Z) (u : list Z → Qc) :
  NoDup N → length N = S K → coalition_invariant u →
  sumQc ((λ f,
     sumQc ((λ S, weightQc K (length S) * (u (S ++ [f]) - u S))
              <$> _get_all_subsets (filter (λ i, i ≠ f) N))) <$> N)
  = u N - u [].
Proof.
  intros Hnd Hlen Hu.
  rewrite (sumQc_fmap_ext _
    (λ f : Z, sumQc ((λ r : nat,
        weightQc K r
        * (sumQc ((λ S, u (S ++ [f])) <$> combinations (filter (λ i, i ≠ f) N) r)
           - sumQc (u <$> combinations (filter (λ i, i ≠ f) N) r)))
      <$> seq 0 (S K))) N).
  2:{ intros f Hf. rewrite _get_all_subsets_by_size, sumQc_bind.
      rewrite length_filter_ne_present, Hlen by done. simpl pred.
      apply sumQc_fmap_ext. intros r _.
      rewrite (sumQc_fmap_ext _
        (λ S, weightQc K r * u (S ++ [f]) + - weightQc K r * u S)).
      2:{ intros S [_ ->]%elem_of_combinations. ring. }
      rewrite sumQc_fmap_plus, !sumQc_fmap_scale. ring. }
  rewrite sumQc_swap.
  rewrite (sumQc_fmap_ext _
    (λ r : nat, sizeQc K (S r) * sumQc (u <$> combinations N (S r))
                - sizeQc K r * sumQc (u <$> combinations N r))).
  2:{ intros r Hr%elem_of_seq.
      rewrite (sumQc_fmap_ext _
        (λ f : Z,
           weightQc K r
           * sumQc ((λ S, u (S ++ [f])) <$> combinations (filter (λ i, i ≠ f) N) r)
           + - weightQc K r
             * sumQc (u <$> combinations (filter (λ i, i ≠ f) N) r))).
      2:{ intros f _. ring. }
      rewrite sumQc_fmap_plus, !sumQc_fmap_scale.
      rewrite coalitions_with, coalitions_without, Hlen by done.
      rewrite <-weightQc_with, <-weightQc_without by lia. ring. }
  rewrite (sumQc_telescope
             (λ r, sizeQc K r * sumQc (u <$> combinations N r))).
  rewrite <-Hlen at 2. rewrite combinations_all, combinations_0.
  rewrite sizeQc_0, sizeQc_all. cbn. ring.
Qed.

Lemma coalition_value_invariant self bg instance :
  coalition_invariant (coalition_value self bg instance).
Proof.
  intros C1 C2 H. unfold coalition_value, subset_model_value.
  rewrite (overwrite_columns_ext C1 C2); [done|]. intros j _. apply H.
Qed.

Lemma result_bind_ok {A B : Type} (x : A) (k : A → result B) : Ok x ≫= k = k x.
Proof. done. Qed.

Lemma marginal_step_value self bg instance (K : nat) (f : Z) (a : Qc) (C : list Z) :
  (length C ≤ K)%nat →
  (∃ q, subset_model_value self bg C instance = Ok (Fin q)) →
  (∃ q, subset_model_value self bg (C ++ [f]) instance = Ok (Fin q)) →
  marginal_step self bg (Z.of_nat (S K)) f instance (Fin a) C
  = Ok (Fin (a + weightQc K (length C)
                 * (coalition_value self bg instance (C ++ [f])
                    - coalition_value self bg instance C))).
Proof.
  intros HC [q0 H0] [q1 H1]. unfold marginal_step, coalition_value.
  rewrite H0, H1, _permutation_factor_value by done. done.
Qed.

(** With every coalition of features of [0, M) valued by a finite number,
    the accumulator of [_compute_single_shapley_value] is the weighted sum
    of the marginal contributions. *)
Lemma single_shapley_value_sum self bg instance (K : nat) (f : Z) :
  len1 instance = Z.of_nat (S K) →
  (0 ≤ f < Z.of_nat (S K))%Z →
  (∀ C : list Z, (∀ x, x ∈ C → (0 ≤ x < Z.of_nat (S K))%Z) →
        ∃ q, subset_model_value self bg C instance = Ok (Fin q)) →
  single_shapley_value self bg f instance
  = Ok (Fin (sumQc ((λ C, weightQc K (length C)
                          * (coalition_value self bg instance (C ++ [f])
                             - coalition_value self bg instance C))
                      <$> _get_all_subsets
                            (filter (λ i, i ≠ f) (range (Z.of_nat (S K))))))).
Proof.
  intros Hlen Hf Hfin. unfold single_shapley_value, _get_all_other_feature_subsets.
  rewrite Hlen. cbv zeta.
  set (other := filter (λ i, i ≠ f) (range (Z.of_nat (S K)))).
  assert (length other = K) as Hother.
  { unfold other. rewrite length_filter_ne_present
      by (apply NoDup_range || by apply elem_of_range).
    rewrite length_range. lia. }
  assert (∀ l a,
    Forall (λ C, C `sublist_of` other) l →
    fold_result (marginal_step self bg (Z.of_nat (S K)) f instance) l (Fin a)
    = Ok (Fin (a + sumQc ((λ C, weightQc K (length C)
                          * (coalition_value self bg instance (C ++ [f])
                             - coalition_value self bg instance C)) <$> l))))
    as Hfold.
  { induction l as [|C l IH]; intros a Hl.
    - cbn. f_equal. f_equal. ring.
    - apply Forall_cons in Hl as [HC Hl]. cbn [fold_result].
      assert (∀ x, x ∈ C → (0 ≤ x < Z.of_nat (S K))%Z) as Hrange.
      { intros x Hx. eapply elem_of_sublist in Hx; [|done].
        apply list_elem_of_filter in Hx as [_ ?%elem_of_range]. done. }
      assert (∀ x, x ∈ C ++ [f] → (0 ≤ x < Z.of_nat (S K))%Z) as Hrange'.
      { intros x [?| ->%list_elem_of_singleton]%elem_of_app; auto. }
      rewrite fmap_cons, sumQc_cons.
      rewrite marginal_step_value; [|apply sublist_length in HC; lia|auto..].
      rewrite result_bind_ok, IH by done. f_equal. f_equal. ring. }
  unfold float_of_int. rewrite Z2Qc_inj_0, Hfold.
  - f_equal. f_equal. ring.
  - apply Forall_forall. by intros C ?%elem_of__get_all_subsets.
Qed.

Lemma length_mixed_row C js x r : length (mixed_row C js x r) = length r.
Proof. apply length_imap. Qed.

Lemma mixed_row_visit C (j : Z) js x xj r :
  (0 ≤ j)%Z → j ∈ C → x !! Z.to_nat j = Some xj →
  mixed_row C js x (<[Z.to_nat j := xj]> r) = mixed_row C (j :: js) x r.
Proof.
  intros Hj HC Hx. apply list_eq. intros p. unfold mixed_row.
  rewrite !list_lookup_imap, list_lookup_insert.
  destruct (decide (Z.to_nat j = p ∧ (Z.to_nat j < length r)%nat)) as [[<- Hlt]|Hp].
  - destruct (lookup_lt_is_Some_2 r _ Hlt) as [v ->]. simpl.
    rewrite Z2Nat.id, Hx by done. simpl.
    rewrite (bool_decide_eq_true_2 (_ ∧ _ ∈ j :: js)) by (split; [done|by left]).
    by case_bool_decide.
  - destruct (r !! p) as [v|] eqn:Hr; [|done]. simpl. f_equal.
    assert (Z.of_nat p ≠ j).
    { intros <-. rewrite Nat2Z.id in Hp. apply Hp. split; [done|].
      by eapply lookup_lt_Some. }
    rewrite (bool_decide_ext (_ ∧ _ ∈ j :: js) (Z.of_nat p ∈ C ∧ Z.of_nat p ∈ js));
      [done|]. rewrite elem_of_cons. tauto.
Qed.

Lemma mixed_row_skip C (j : Z) js x r :
  j ∉ C → mixed_row C js x r = mixed_row C (j :: js) x r.
Proof.
  intros HC. unfold mixed_row. apply imap_ext. intros p v _.
  rewrite (bool_decide_ext (_ ∧ _ ∈ j :: js) (Z.of_nat p ∈ C ∧ Z.of_nat p ∈ js));
    [done|]. rewrite elem_of_cons. split; [|tauto].
  intros [HC' [Heq|?]]; [rewrite Heq in HC'; contradiction|done].
Qed.

Lemma overwrite_column_float (C : list Z) (j : Z) (x : list float) rows (M : nat) :
  length x = M → Forall (λ r, length r = M) rows →
  (0 ≤ j)%Z → (j ∈ C → (j < Z.of_nat M)%Z) →
  overwrite_column C (FloatVec x) (FloatArray rows) j
  = Ok (FloatArray (if bool_decide (j ∈ C)
                    then (λ r, <[Z.to_nat j := default NaN (x !! Z.to_nat j)]> r) <$> rows
                    else rows)).
Proof.
  intros Hx Hrows Hj0 HjM. unfold overwrite_column.
  case_bool_decide as Hj; [|done]. specialize (HjM Hj).
  destruct (lookup_lt_is_Some_2 x (Z.to_nat j)) as [xj Hxj]; [lia|].
  cbn [getitem1]. rewrite Hxj. cbn [from_option default]. rewrite result_bind_ok.
  unfold setcol, setcol_rows. rewrite bool_decide_eq_true_2; [done|].
  eapply Forall_impl; [exact Hrows|]. intros r Hr. simpl in *. lia.
Qed.

(** The dataset that the loop builds from a float64 background with rows of
    length M, for a coalition of features below M. *)
Lemma overwrite_loop_float (C js : list Z) (x : list float) rows (M : nat) :
  length x = M → Forall (λ r, length r = M) rows →
  (∀ j, j ∈ js → (0 ≤ j)%Z) →
  (∀ j, j ∈ C → (0 ≤ j < Z.of_nat M)%Z) →
  fold_result (overwrite_column C (FloatVec x)) js (FloatArray rows)
  = Ok (FloatArray (mixed_row C js x <$> rows)).
Proof.
  intros Hx Hrows Hjs HC. revert rows Hrows.
  induction js as [|j js IH]; intros rows Hrows.
  - cbn [fold_result]. do 2 f_equal. symmetry.
    rewrite <-(list_fmap_id rows) at 2. apply list_fmap_ext. intros _ r _.
    apply list_eq. intros p. unfold mixed_row, id. rewrite list_lookup_imap.
    destruct (r !! p); [|done]. simpl.
    rewrite bool_decide_eq_false_2; [done|]. by intros [_ ?%elem_of_nil].
  - cbn [fold_result].
    rewrite (overwrite_column_float C j x rows M), result_bind_ok;
      [|done|done|apply Hjs; by left|intros ?%HC; lia].
    assert (∀ j', j' ∈ js → (0 ≤ j')%Z) as Hjs' by (intros j' ?; apply Hjs; by right).
    case_bool_decide as Hj.
    + destruct (HC j Hj) as [Hj0 HjM].
      destruct (lookup_lt_is_Some_2 x (Z.to_nat j)) as [xj Hxj]; [lia|].
      rewrite Hxj. cbn [default]. rewrite IH.
      * do 2 f_equal. rewrite <-list_fmap_compose. apply list_fmap_ext.
        intros _ r _. simpl. by apply mixed_row_visit.
      * done.
      * apply Forall_fmap. eapply Forall_impl; [exact Hrows|].
        intros r Hr. simpl. by rewrite length_insert.
    + rewrite IH by done.
      do 2 f_equal. apply list_fmap_ext. intros _ r _. by apply mixed_row_skip.
Qed.

Lemma mixed_row_all (C js : list Z) (x r : list float) :
  length r = length x →
  (∀ p, (p < length x)%nat → Z.of_nat p ∈ C ∧ Z.of_nat p ∈ js) →
  mixed_row C js x r = x.
Proof.
  intros Hlen Hall. apply list_eq. intros p. unfold mixed_row.
  rewrite list_lookup_imap. destruct (decide (p < length x)%nat) as [Hp|Hp].
  - destruct (lookup_lt_is_Some_2 r p) as [v ->]; [lia|].
    destruct (lookup_lt_is_Some_2 x p Hp) as [xp ->]. simpl.
    by rewrite bool_decide_eq_true_2 by auto.
  - rewrite (lookup_ge_None_2 r), (lookup_ge_None_2 x) by lia. done.
Qed.

Lemma mixed_row_none (js : list Z) (x r : list float) : mixed_row [] js x r = r.
Proof.
  apply list_eq. intros p. unfold mixed_row. rewrite list_lookup_imap.
  destruct (r !! p); [|done]. unfold fmap, option_fmap, option_map.
  by rewrite bool_decide_eq_false_2 by (by intros [?%elem_of_nil _]).
Qed.

Lemma fsum_fin (l : list Qc) : fsum (Fin <$> l) = Fin (sumQc l).
Proof.
  induction l as [|q l IH].
  - cbn. unfold float_of_int. by rewrite Z2Qc_inj_0.
  - rewrite fmap_cons, sumQc_cons. unfold fsum in *. cbn [foldr]. by rewrite IH.
Qed.

Lemma np_mean_fin (l : list Qc) :
  l ≠ [] →
  np_mean (Fin <$> l) = Fin (sumQc l / Qc_of_Z (Z.of_nat (length l))).
Proof.
  intros Hl. unfold np_mean. destruct l as [|q l]; [done|].
  rewrite fmap_cons. rewrite <-(fmap_cons Fin), fsum_fin.
  by rewrite length_fmap.
Qed.

Lemma Forall_mixed_row (P : float → Prop) (C js : list Z) (x r : list float) :
  Forall P x → Forall P r → Forall P (mixed_row C js x r).
Proof.
  intros Hx Hr. apply Forall_lookup. intros p v. unfold mixed_row.
  rewrite list_lookup_imap. destruct (r !! p) as [w|] eqn:Hw; [|done].
  simpl. intros [= <-]. case_bool_decide.
  - destruct (x !! p) as [xp|] eqn:Hxp; simpl.
    + eapply Forall_lookup_1; [exact Hx|exact Hxp].
    + eapply Forall_lookup_1; [exact Hr|exact Hw].
  - eapply Forall_lookup_1; [exact Hr|exact Hw].
Qed.

(** When the overwriting loop reaches every column (the background has more
    rows than features), the arrays are float64 with finite entries and the
    model predicts row by row with finite values, the Shapley values of the
    features of an instance sum to the prediction on the instance less the
    mean prediction on the background. *)
Theorem efficiency_with_enough_rows
    self σ (rows : list (list float)) (x : list float)
    (predict : list float → Qc) (K : nat) :
  σ !! background_dataset self = Some (FloatArray rows) →
  Forall (finite_row (S K)) rows →
  (S K < length rows)%nat →
  finite_row (S K) x →
  (∀ rows', Forall (finite_row (S K)) rows' →
            model self (FloatArray rows') = (Fin ∘ predict) <$> rows') →
  ∃ phi : Z → Qc,
    (∀ j, (0 ≤ j < Z.of_nat (S K))%Z →
       (_compute_single_shapley_value self j (FloatVec x) σ).1 = Ok (Fin (phi j))) ∧
    Fin (sumQc (phi <$> range (Z.of_nat (S K))))
    = fsub (Fin (predict x)) (np_mean (model self (FloatArray rows))).
Proof.
  intros Hbg Hrows HN [Hx Hxfin] Hmodel.
  set (bg := FloatArray rows). set (M := Z.of_nat (S K)).
  assert (Forall (λ r, length r = S K) rows) as Hlen.
  { eapply Forall_impl; [exact Hrows|]. by intros r [? _]. }
  assert (rows ≠ []) as Hne by (destruct rows; [simpl in HN; lia|done]).
  assert (∀ C : list Z, (∀ j, j ∈ C → (0 ≤ j < M)%Z) →
            subset_model_value self bg C (FloatVec x)
            = Ok (Fin (sumQc (predict <$> (mixed_row C
                         (range2 0 (Z.of_nat (length rows) - 1)) x <$> rows))
                       / Qc_of_Z (Z.of_nat (length rows))))) as Hvalue.
  { intros C HC. unfold subset_model_value, overwrite_columns. simpl nrows.
    rewrite (overwrite_loop_float C _ x rows (S K)); [|done..| |done].
    2:{ intros j Hj%elem_of_seqZ. lia. }
    cbn [fmap result_fmap]. rewrite Hmodel, list_fmap_compose, np_mean_fin.
    - by rewrite !length_fmap.
    - by destruct rows.
    - apply Forall_fmap. eapply Forall_impl; [exact Hrows|].
      intros r [Hr Hrfin]. split.
      + by rewrite length_mixed_row.
      + by apply Forall_mixed_row. }
  exists (λ j, sumQc ((λ C, weightQc K (length C)
                          * (coalition_value self bg (FloatVec x) (C ++ [j])
                             - coalition_value self bg (FloatVec x) C))
                      <$> _get_all_subsets (filter (λ i, i ≠ j) (range M)))).
  split.
  - intros j Hj.
    destruct (_compute_single_shapley_value_run self j (FloatVec x) σ bg Hbg)
      as (k & ->). simpl.
    apply single_shapley_value_sum; [simpl; lia|done|].
    intros C HC. rewrite Hvalue by done. by eexists.
  - rewrite (shapley_sum K (range M) (coalition_value self bg (FloatVec x)));
      [|apply NoDup_range|rewrite length_range; lia|apply coalition_value_invariant].
    unfold coalition_value. rewrite !Hvalue.
    2:{ by intros j ?%elem_of_nil. }
    2:{ by intros j ?%elem_of_range. }
    unfold bg. rewrite Hmodel, list_fmap_compose, np_mean_fin by (done || by destruct rows).
    rewrite length_fmap. cbn [fsub]. f_equal. f_equal.
    + rewrite (list_fmap_ext _ (λ _, x) rows).
      2:{ intros _ r Hr%list_elem_of_lookup_2. apply mixed_row_all.
          - rewrite Hx. by apply (proj1 (Forall_forall _ _) Hlen).
          - intros p Hp. unfold range2. rewrite elem_of_range, elem_of_seqZ.
            unfold M. lia. }
      rewrite <-list_fmap_compose.
      change (predict ∘ (λ _ : list float, x)) with (λ _ : list float, predict x).
      rewrite (sumQc_const (predict x) rows).
      field. apply Qc_of_nat_ne_0. lia.
    + rewrite (list_fmap_ext (mixed_row [] _ x) id rows).
      * by rewrite list_fmap_id.
      * intros _ r _. apply mixed_row_none.
Qed.

Lemma linear_model_row_by_row (rows : list (list float)) :
  Forall (finite_row 2) rows →
  model linear_explainer (FloatArray rows) = (Fin ∘ linear_predict) <$> rows.
Proof.
  intros Hrows. simpl. apply Forall_fmap_ext_1.
  eapply Forall_impl; [exact Hrows|]. intros r [Hlen Hfin].
  destruct r as [|x0 [|x1 [|? ?]]]; try done.
  apply Forall_cons in Hfin as [H0 Hfin]. apply Forall_cons in Hfin as [H1 _].
  by destruct x0, x1.
Qed.

(** With three background rows the loop reaches both columns, and the
    scenario of the specification gives what the specification expects:
    6 for feature 0 and 15 for feature 1. *)
Lemma shapley_values_linear_three_rows :
  (shapley_values linear_explainer 1%nat store_three_rows).1 = Ok 2%nat ∧
  (shapley_values linear_explainer 1%nat store_three_rows).2 !! 2%nat
    = Some (FloatArray [[float_of_int 6; float_of_int 15]]).
Proof. split; by_evaluation. Qed.

Lemma efficiency_with_enough_rows_linear :
  ∃ phi : Z → Qc,
    (∀ j, (0 ≤ j < Z.of_nat 2)%Z →
       (_compute_single_shapley_value linear_explainer j
          (FloatVec [float_of_int 4; float_of_int 6]) store_three_rows).1
       = Ok (Fin (phi j))) ∧
    Fin (sumQc (phi <$> range (Z.of_nat 2)))
    = fsub (Fin (linear_predict [float_of_int 4; float_of_int 6]))
        (np_mean (model linear_explainer (FloatArray background_three_rows))).
Proof.
  apply (efficiency_with_enough_rows linear_explainer store_three_rows
           background_three_rows [float_of_int 4; float_of_int 6]
           linear_predict 1).
  - reflexivity.
  - repeat constructor; done.
  - simpl. lia.
  - repeat constructor; done.
  - apply linear_model_row_by_row.
Qed.

End efficiency.

(** ** The dtype of the output *)

Lemma setitem_rows_cell {A : Type} (i j : nat) (v : A) rows rows' :
  setitem_rows i j v rows = Ok rows' →
  length rows' = length rows ∧
  cell rows' i j = Some v ∧
  ∀ i' j', (i', j') ≠ (i, j) → cell rows' i' j' = cell rows i' j'.
Proof.
  unfold setitem_rows, cell. destruct (rows !! i) as [r|] eqn:Hr; [|done].
  case_bool_decide as Hj; [|done]. intros [= <-]. split_and!.
  - by rewrite length_insert.
  - rewrite list_lookup_insert_eq by by eapply lookup_lt_Some.
    simpl. by rewrite list_lookup_insert_eq.
  - intros i' j' Hne. destruct (decide (i' = i)) as [->|Hi].
    + rewrite list_lookup_insert_eq by by eapply lookup_lt_Some.
      rewrite Hr. simpl. apply list_lookup_insert_ne. congruence.
    + by rewrite list_lookup_insert_ne.
Qed.

Lemma setitem_dtype a i j x a' :
  setitem a i j x = Ok a' → dtype_of a' = dtype_of a ∧ nrows a' = nrows a.
Proof.
  destruct a as [rows|rows]; simpl.
  - destruct (pyfloat_as_int x) as [z|]; [|done]. simpl.
    destruct (setitem_rows _ _ z rows) as [rows'|] eqn:Hset; [|done].
    intros [= <-]. apply setitem_rows_cell in Hset as (Hlen & _). by simpl.
  - destruct (setitem_rows _ _ x rows) as [rows'|] eqn:Hset; [|done].
    intros [= <-]. apply setitem_rows_cell in Hset as (Hlen & _). by simpl.
Qed.

Lemma zeros_like_dtype a :
  dtype_of (zeros_like a) = dtype_of a ∧ nrows (zeros_like a) = nrows a.
Proof. destruct a; simpl; by rewrite length_fmap. Qed.

Lemma fill_all_dtype self bg x out :
  fill_all self bg x = Ok out →
  dtype_of out = dtype_of x ∧ nrows out = nrows x.
Proof.
  unfold fill_all.
  apply (fold_result_invariant _
           (λ _ o, dtype_of o = dtype_of x ∧ nrows o = nrows x)).
  - apply zeros_like_dtype.
  - intros _ i o1 o2 Ho1 _. unfold fill_row.
    apply (fold_result_invariant _
             (λ _ o, dtype_of o = dtype_of x ∧ nrows o = nrows x)); [done|].
    intros _ j o3 o4 [Hd Hn] _. unfold fill_cell.
    destruct (getrow x i) as [Xi|]; [|done]. simpl.
    destruct (single_shapley_value self bg j Xi) as [v|]; [|done]. simpl.
    intros [-> ->]%setitem_dtype. done.
Qed.

Section int64_output.
Context (self : ShapleyExplainer) (bg : ndarray) (rows : list (list Z)).



End int64_output.



(** * Further properties of the code *)

(** ** The weights: where they are defined, and their symmetry *)




(** ** The enumerator on any list, and with a feature outside the range *)

Lemma fmap_bind_list {A B C : Type} (g : B → C) (f : A → list B) (l : list A) :
  g <$> (l ≫= f) = l ≫= (λ x, g <$> f x).
Proof.
  induction l as [|x l IH]; [done|]. csimpl. by rewrite fmap_app, IH.
Qed.

Lemma combinations_sizes {A : Type} (items : list A) (r : nat) :
  length <$> combinations items r = replicate (binom (length items) r) r.
Proof.
  rewrite <-length_combinations.
  assert (Forall (λ C, length C = r) (combinations items r)) as Hall.
  { apply Forall_forall. by intros C [_ ?]%elem_of_combinations. }
  induction Hall as [|C l HC _ IH]; [done|].
  rewrite fmap_cons, length_cons, HC, IH. done.
Qed.

Lemma NoDup_bind_1 {A B : Type} (f : A → list B) (l : list A) (x : A) :
  NoDup (l ≫= f) → x ∈ l → NoDup (f x).
Proof.
  induction l as [|y l IH]; [by intros _ ?%elem_of_nil|].
  csimpl. intros (Hy & _ & Hl)%NoDup_app [->|Hx]%elem_of_cons; auto.
Qed.

Lemma combinations_1 {A : Type} (items : list A) :
  combinations items 1 = (λ x, [x]) <$> items.
Proof.
  induction items as [|x items IH]; [done|].
  cbn [combinations]. rewrite combinations_0, IH. done.
Qed.

Lemma last__get_all_subsets (items : list Z) :
  last (_get_all_subsets items) = Some items.
Proof.
  rewrite _get_all_subsets_by_size, seq_S, bind_app, bind_singleton.
  rewrite Nat.add_0_l, combinations_all. apply last_snoc.
Qed.

(** X3: for every list of K items, repeated or not, [_get_all_subsets]
    yields 2^K tuples: the subsequences of the list (each keeps the order
    of the input), by size, the empty tuple first and C(K, r) tuples of
    each size r.  No tuple is yielded twice exactly when no item is
    repeated. *)
Theorem get_all_subsets_any_list (items : list Z) :
  length (_get_all_subsets items) = (2 ^ length items)%nat ∧
  (∀ C, C ∈ _get_all_subsets items ↔ C `sublist_of` items) ∧
  length <$> _get_all_subsets items
    = seq 0 (S (length items)) ≫= (λ r, replicate (binom (length items) r) r) ∧
  head (_get_all_subsets items) = Some [] ∧
  last (_get_all_subsets items) = Some items ∧
  (NoDup (_get_all_subsets items) ↔ NoDup items).
Proof.
  split_and!.
  - apply length__get_all_subsets.
  - intros C. apply elem_of__get_all_subsets.
  - rewrite _get_all_subsets_by_size, fmap_bind_list.
    apply list_bind_ext; [|done]. intros r. apply combinations_sizes.
  - rewrite _get_all_subsets_by_size, <-cons_seq. csimpl.
    by rewrite combinations_0.
  - apply last__get_all_subsets.
  - split; [|apply NoDup__get_all_subsets].
    rewrite _get_all_subsets_by_size. intros Hnd.
    destruct items as [|x items]; [constructor|].
    apply (NoDup_bind_1 _ _ 1%nat) in Hnd; [|apply elem_of_seq; simpl; lia].
    rewrite combinations_1 in Hnd. by apply NoDup_fmap_1 in Hnd.
Qed.

(** X4: when the feature of interest is not an index of [0, M), nothing is
    excluded: [_get_all_other_feature_subsets M f] yields the 2^M subsets
    of all the M features, the full set of size M among them. *)
Theorem get_all_other_feature_subsets_outside (M f : Z) :
  ¬ (0 ≤ f < M) →
  _get_all_other_feature_subsets M f = _get_all_subsets (range M) ∧
  length (_get_all_other_feature_subsets M f) = (2 ^ Z.to_nat M)%nat ∧
  last (_get_all_other_feature_subsets M f) = Some (range M).
Proof.
  intros Hf. unfold _get_all_other_feature_subsets.
  rewrite filter_ne_absent by (rewrite elem_of_range; lia).
  split_and!; [done| |].
  - by rewrite length__get_all_subsets, length_range.
  - apply last__get_all_subsets.
Qed.

Lemma get_all_other_feature_subsets_outside_witness :
  _get_all_other_feature_subsets 2 (-1) = _get_all_subsets (range 2) ∧
  length (_get_all_other_feature_subsets 2 (-1)) = (2 ^ Z.to_nat 2)%nat ∧
  last (_get_all_other_feature_subsets 2 (-1)) = Some (range 2).
Proof. apply (get_all_other_feature_subsets_outside 2 (-1)). lia. Defined.

(** ** What the methods raise *)












(** ** The approximator: which indices count, and what it raises *)

(** X6: for the empty coalition [_subset_model_approximation] returns the
    mean of the predictions of the model on the background dataset as it
    is, whatever the instance: the baseline of the Shapley formula. *)
Theorem empty_coalition_baseline self instance σ bg :
  σ !! background_dataset self = Some bg →
  (_subset_model_approximation self [] instance σ).1
    = Ok (np_mean (model self bg)).
Proof. apply subset_model_approximation_empty_coalition. Qed.

Lemma empty_coalition_baseline_witness :
  (_subset_model_approximation linear_explainer [] (IntVec [4; 6]) store_int).1
    = Ok (np_mean (model linear_explainer background_int)).
Proof.
  apply (empty_coalition_baseline linear_explainer (IntVec [4; 6]) store_int
           background_int).
  reflexivity.
Defined.

(** X7: the value [_subset_model_approximation] returns depends on the
    coalition only through which indices j with 0 <= j < N - 1 it holds,
    N the number of background rows: the order of the tuple and repeated
    indices do not matter, and negative indices and indices from N - 1 on
    are ignored. *)
Theorem subset_model_approximation_low_indices
    self (C1 C2 : list Z) instance σ bg :
  σ !! background_dataset self = Some bg →
  (∀ j, 0 ≤ j < Z.of_nat (nrows bg) - 1 → j ∈ C1 ↔ j ∈ C2) →
  (_subset_model_approximation self C1 instance σ).1
  = (_subset_model_approximation self C2 instance σ).1.
Proof.
  intros Hbg Hagree.
  destruct (_subset_model_approximation_run self C1 instance σ bg Hbg) as (k1 & ->).
  destruct (_subset_model_approximation_run self C2 instance σ bg Hbg) as (k2 & ->).
  unfold subset_model_value. simpl. f_equal. by apply overwrite_columns_ext.
Qed.

Lemma subset_model_approximation_low_indices_witness :
  (_subset_model_approximation linear_explainer [0; 1] (IntVec [4; 6]) store_int).1
  = (_subset_model_approximation linear_explainer [5; 0; 0; -3] (IntVec [4; 6])
       store_int).1.
Proof.
  apply (subset_model_approximation_low_indices linear_explainer [0; 1]
           [5; 0; 0; -3] (IntVec [4; 6]) store_int background_int).
  - reflexivity.
  - intros j Hj. simpl in Hj. assert (j = 0) as -> by lia.
    split; intros _; [right; by left|by left].
Defined.



(** X10: a feature whose index is N - 1 or more (N the number of background
    rows) is never written into the copy, so all its marginal contributions
    vanish: whatever the model, [_compute_single_shapley_value] gives it
    0 (or NaN, or raises). *)
Theorem high_feature_gets_zero self (feature : Z) instance σ bg :
  σ !! background_dataset self = Some bg →
  Z.of_nat (nrows bg) - 1 ≤ feature →
  (_compute_single_shapley_value self feature instance σ).1 = Ok (Fin 0%Qc) ∨
  (_compute_single_shapley_value self feature instance σ).1 = Ok NaN ∨
  ∃ e, (_compute_single_shapley_value self feature instance σ).1 = Raise e.
Proof.
  intros Hbg Hf.
  destruct (_compute_single_shapley_value self feature instance σ).1
    as [[q|]|e] eqn:Hrun; [|by right; left|by right; right; eexists].
  left. do 2 f_equal. by eapply shapley_value_of_high_feature.
Qed.

Lemma high_feature_gets_zero_witness :
  (_compute_single_shapley_value linear_explainer 1 (IntVec [4; 6]) store_int).1
    = Ok (Fin 0%Qc) ∨
  (_compute_single_shapley_value linear_explainer 1 (IntVec [4; 6]) store_int).1
    = Ok NaN ∨
  ∃ e, (_compute_single_shapley_value linear_explainer 1 (IntVec [4; 6])
          store_int).1 = Raise e.
Proof.
  apply (high_feature_gets_zero linear_explainer 1 (IntVec [4; 6]) store_int
           background_int).
  - reflexivity.
  - simpl. lia.
Defined.

(** ** One feature *)

(** X13: with a single feature the Shapley value is the value of the
    coalition (0,) less the value of the empty coalition: the one weight is
    0! 0! / 1! = 1. *)
Theorem single_feature_shapley_value self instance σ bg (a b : Qc) :
  σ !! background_dataset self = Some bg →
  len1 instance = 1 →
  (_subset_model_approximation self [] instance σ).1 = Ok (Fin a) →
  (_subset_model_approximation self [0] instance σ).1 = Ok (Fin b) →
  (_compute_single_shapley_value self 0 instance σ).1 = Ok (Fin (b - a)%Qc).
Proof.
  intros Hbg Hlen.
  destruct (_subset_model_approximation_run self [] instance σ bg Hbg) as (k0 & ->).
  destruct (_subset_model_approximation_run self [0] instance σ bg Hbg) as (k1 & ->).
  destruct (_compute_single_shapley_value_run self 0 instance σ bg Hbg) as (k & ->).
  simpl. intros Ha Hb. unfold single_shapley_value. rewrite Hlen.
  change (_get_all_other_feature_subsets 1 0) with [[] : list Z].
  cbn [fold_result]. unfold marginal_step. cbn [app length].
  rewrite Ha, Hb. change 1 with (Z.of_nat 1). change (Z.of_nat 0) with (Z.of_nat 0%nat).
  rewrite (_permutation_factor_value 0 0) by lia.
  simpl. do 2 f_equal. unfold weightQc. cbn [fact Nat.sub Nat.mul Nat.add].
  change (Z.of_nat 1 * Z.of_nat 1) with 1. change (Z.of_nat 1) with 1.
  rewrite Z2Qc_inj_0, Z2Qc_inj_1. field. done.
Qed.

Lemma single_feature_shapley_value_witness :
  (_compute_single_shapley_value first_column_explainer 0 (IntVec [1])
     store_column).1 = Ok (Fin (Q2Qc 1 - Q2Qc (1 # 2))%Qc).
Proof.
  apply (single_feature_shapley_value first_column_explainer (IntVec [1])
           store_column background_column (Q2Qc (1 # 2)) (Q2Qc 1)).
  - reflexivity.
  - reflexivity.
  - apply (bool_decide_unpack _). vm_compute. exact I.
  - apply (bool_decide_unpack _). vm_compute. exact I.
Defined.

(** ** The synthetic dataset, by dtype *)

Lemma overwrite_column_float_fit (C : list Z) (j : Z) (x : list float) rows :
  (0 ≤ j) →
  (j ∈ C → (Z.to_nat j < length x)%nat
            ∧ Forall (λ r, (Z.to_nat j < length r)%nat) rows) →
  overwrite_column C (FloatVec x) (FloatArray rows) j
  = Ok (FloatArray (if bool_decide (j ∈ C)
                    then (λ r, <[Z.to_nat j := default NaN (x !! Z.to_nat j)]> r) <$> rows
                    else rows)).
Proof.
  intros Hj0 Hfit. unfold overwrite_column.
  case_bool_decide as Hj; [|done]. destruct (Hfit Hj) as [Hx Hrows].
  destruct (lookup_lt_is_Some_2 x (Z.to_nat j) Hx) as [xj Hxj].
  cbn [getitem1]. rewrite Hxj. cbn [from_option default]. rewrite result_bind_ok.
  unfold setcol, setcol_rows. by rewrite bool_decide_eq_true_2.
Qed.

Lemma overwrite_loop_float_fit (C js : list Z) (x : list float) rows :
  (∀ j, j ∈ js → 0 ≤ j) →
  (∀ j, j ∈ C → j ∈ js →
        (Z.to_nat j < length x)%nat
        ∧ Forall (λ r, (Z.to_nat j < length r)%nat) rows) →
  fold_result (overwrite_column C (FloatVec x)) js (FloatArray rows)
  = Ok (FloatArray (mixed_row C js x <$> rows)).
Proof.
  revert rows. induction js as [|j js IH]; intros rows Hjs Hfit.
  - cbn [fold_result]. do 2 f_equal. symmetry.
    rewrite <-(list_fmap_id rows) at 2. apply list_fmap_ext. intros _ r _.
    apply list_eq. intros p. unfold mixed_row, id. rewrite list_lookup_imap.
    destruct (r !! p); [|done]. simpl.
    rewrite bool_decide_eq_false_2; [done|]. by intros [_ ?%elem_of_nil].
  - cbn [fold_result].
    rewrite (overwrite_column_float_fit C j x rows), result_bind_ok;
      [|apply Hjs; by left|intros ?; apply Hfit; [done|by left]].
    assert (∀ j', j' ∈ js → 0 ≤ j') as Hjs' by (intros j' ?; apply Hjs; by right).
    case_bool_decide as Hj.
    + destruct (Hfit j Hj) as [Hx Hrows]; [by left|].
      destruct (lookup_lt_is_Some_2 x (Z.to_nat j) Hx) as [xj Hxj].
      rewrite Hxj. cbn [default]. rewrite IH.
      * do 2 f_equal. rewrite <-list_fmap_compose. apply list_fmap_ext.
        intros _ r _. simpl. apply mixed_row_visit; [|done..].
        apply Hjs. by left.
      * done.
      * intros j' HC' Hjs''. destruct (Hfit j' HC') as [? Hrows']; [by right|].
        split; [done|]. apply Forall_fmap. eapply Forall_impl; [exact Hrows'|].
        intros r Hr. simpl. by rewrite length_insert.
    + rewrite IH.
      * do 2 f_equal. apply list_fmap_ext. intros _ r _. by apply mixed_row_skip.
      * done.
      * intros j' HC' Hjs''. apply Hfit; [done|by right].
Qed.

(** X8: with a float64 background of N rows and a float64 instance,
    [_subset_model_approximation] hands the model the background in which,
    in every row, the entry at each position p of the coalition with
    p < N - 1 is the entry of the instance at p, and every other entry is
    the background's; it returns the mean of the predictions on it.  The
    instance and the rows have to reach the positions that are written,
    nothing more. *)
Theorem subset_model_approximation_float_dataset
    self (C : list Z) (x : list float) σ (rows : list (list float)) :
  σ !! background_dataset self = Some (FloatArray rows) →
  (∀ j, j ∈ C → 0 ≤ j < Z.of_nat (length rows) - 1 →
        (Z.to_nat j < length x)%nat
        ∧ Forall (λ r, (Z.to_nat j < length r)%nat) rows) →
  (_subset_model_approximation self C (FloatVec x) σ).1
  = Ok (np_mean (model self (FloatArray
          (mixed_row C (range2 0 (Z.of_nat (length rows) - 1)) x <$> rows)))) ∧
  ∀ (r : list float) (p : nat),
    mixed_row C (range2 0 (Z.of_nat (length rows) - 1)) x r !! p
    = (λ v, if bool_decide (Z.of_nat p ∈ C ∧ Z.of_nat p < Z.of_nat (length rows) - 1)
            then default v (x !! p) else v) <$> r !! p.
Proof.
  intros Hbg Hfit. split.
  - destruct (_subset_model_approximation_run self C (FloatVec x) σ _ Hbg)
      as (k & ->). simpl. unfold subset_model_value, overwrite_columns. simpl nrows.
    rewrite overwrite_loop_float_fit; [done| |].
    + intros j Hj%elem_of_seqZ. lia.
    + intros j HC Hj%elem_of_seqZ. apply Hfit; [done|lia].
  - intros r p. unfold mixed_row. rewrite list_lookup_imap.
    destruct (r !! p) as [v|]; [|done]. simpl. f_equal.
    rewrite (bool_decide_ext (_ ∧ _ ∈ range2 _ _)
               (Z.of_nat p ∈ C ∧ Z.of_nat p < Z.of_nat (length rows) - 1)); [done|].
    unfold range2. rewrite elem_of_seqZ. split; intros [? ?]; (split; [done|lia]).
Qed.

Lemma subset_model_approximation_float_dataset_witness :
  (_subset_model_approximation linear_explainer [1; 0]
     (FloatVec [float_of_int 4; float_of_int 6]) store_three_rows).1
  = Ok (np_mean (model linear_explainer (FloatArray
          (mixed_row [1; 0] (range2 0 (Z.of_nat (length background_three_rows) - 1))
             [float_of_int 4; float_of_int 6] <$> background_three_rows)))) ∧
  ∀ (r : list float) (p : nat),
    mixed_row [1; 0] (range2 0 (Z.of_nat (length background_three_rows) - 1))
      [float_of_int 4; float_of_int 6] r !! p
    = (λ v, if bool_decide (Z.of_nat p ∈ [1; 0]
                            ∧ Z.of_nat p < Z.of_nat (length background_three_rows) - 1)
            then default v ([float_of_int 4; float_of_int 6] !! p) else v) <$> r !! p.
Proof.
  apply (subset_model_approximation_float_dataset linear_explainer [1; 0]
           [float_of_int 4; float_of_int 6] store_three_rows background_three_rows).
  - reflexivity.
  - intros j _ Hj. simpl in Hj. split; [simpl; lia|].
    unfold background_three_rows.
    repeat (apply Forall_cons_2; [simpl; lia|]). apply Forall_nil_2.
Defined.




(** ** The output array for a float64 input *)

Section float64_output.
Context (self : ShapleyExplainer) (bg : ndarray) (rows : list (list float)).



End float64_output.


Lemma setitem_rows_lengths {A : Type} (i j : nat) (v : A) rows rows' :
  setitem_rows i j v rows = Ok rows' → length <$> rows' = length <$> rows.
Proof.
  unfold setitem_rows. destruct (rows !! i) as [r|] eqn:Hr; [|done].
  case_bool_decide; [|done]. intros [= <-].
  rewrite list_fmap_insert, length_insert. apply list_insert_id.
  by rewrite list_lookup_fmap, Hr.
Qed.

Lemma setitem_row_lengths a i j x a' :
  setitem a i j x = Ok a' → row_lengths a' = row_lengths a.
Proof.
  destruct a as [rows|rows]; simpl.
  - destruct (pyfloat_as_int x) as [z|]; [|done]. simpl.
    destruct (setitem_rows _ _ z rows) as [rows'|] eqn:Hset; [|done].
    intros [= <-]. by apply setitem_rows_lengths in Hset.
  - destruct (setitem_rows _ _ x rows) as [rows'|] eqn:Hset; [|done].
    intros [= <-]. by apply setitem_rows_lengths in Hset.
Qed.

Lemma zeros_like_row_lengths a : row_lengths (zeros_like a) = row_lengths a.
Proof.
  destruct a as [rows|rows]; simpl; rewrite <-list_fmap_compose;
    apply list_fmap_ext; intros _ r _; simpl; by rewrite length_fmap.
Qed.

Lemma fill_all_row_lengths self bg x out :
  fill_all self bg x = Ok out → row_lengths out = row_lengths x.
Proof.
  unfold fill_all.
  apply (fold_result_invariant _ (λ _ o, row_lengths o = row_lengths x)).
  - apply zeros_like_row_lengths.
  - intros _ i o1 o2 Ho1 _. unfold fill_row.
    apply (fold_result_invariant _ (λ _ o, row_lengths o = row_lengths x)); [done|].
    intros _ j o3 o4 Ho3 _. unfold fill_cell.
    destruct (getrow x i) as [Xi|]; [|done]. simpl.
    destruct (single_shapley_value self bg j Xi) as [v|]; [|done]. simpl.
    intros ->%setitem_row_lengths. done.
Qed.

(** X15: the array that [shapley_values] returns is a new object with the
    shape of X: the same dtype and as many rows, each as long as the row of
    X it stands for. *)
Theorem shapley_values_same_shape self X σ x bg out σ' :
  σ !! X = Some x →
  σ !! background_dataset self = Some bg →
  shapley_values self X σ = (Ok out, σ') →
  σ !! out = None ∧
  ∃ o, σ' !! out = Some o ∧ dtype_of o = dtype_of x
       ∧ row_lengths o = row_lengths x.
Proof.
  intros HX Hbg Hrun.
  destruct (shapley_values_run self X σ x bg HX Hbg) as (o & k & Hrun' & Hval).
  rewrite Hrun in Hrun'. injection Hrun' as Hres ->.
  destruct (fill_all self bg x) as [d|e] eqn:Hfill; [|done].
  injection Hres as ->. rewrite (Hval d eq_refl). split.
  - by apply lookup_ge_None_2.
  - exists d. split_and!.
    + by apply list_lookup_middle.
    + by apply (fill_all_dtype self bg).
    + by apply (fill_all_row_lengths self bg).
Qed.

Lemma shapley_values_same_shape_witness :
  store_int !! 2%nat = None ∧
  ∃ o, (shapley_values linear_explainer 1%nat store_int).2 !! 2%nat = Some o
       ∧ dtype_of o = dtype_of X_int
       ∧ row_lengths o = row_lengths X_int.
Proof.
  apply (shapley_values_same_shape linear_explainer 1%nat store_int X_int
           background_int 2%nat (shapley_values linear_explainer 1%nat store_int).2).
  - reflexivity.
  - reflexivity.
  - vm_compute. reflexivity.
Defined.












(** ** Efficiency of [shapley_values] *)




(** ** The Shapley formula, and the dummy feature *)

Lemma marginal_fold_value self bg instance (K : nat) (f : Z) (u : list Z → Qc)
    (l : list (list Z)) (a : Qc) :
  Forall (λ C, (length C ≤ K)%nat ∧
               subset_model_value self bg C instance = Ok (Fin (u C)) ∧
               subset_model_value self bg (C ++ [f]) instance
                 = Ok (Fin (u (C ++ [f])))) l →
  fold_result (marginal_step self bg (Z.of_nat (S K)) f instance) l (Fin a)
  = Ok (Fin (a + sumQc ((λ C, weightQc K (length C) * (u (C ++ [f]) - u C))
                          <$> l))%Qc).
Proof.
  revert a. induction l as [|C l IH]; intros a Hl.
  - cbn. do 2 f_equal. ring.
  - apply Forall_cons in Hl as [(HC & H0 & H1) Hl]. cbn [fold_result].
    rewrite (marginal_step_value self bg instance K f a C HC) by by eexists.
    rewrite result_bind_ok, IH by done. unfold coalition_value.
    rewrite H0, H1, fmap_cons, sumQc_cons. do 2 f_equal. ring.
Qed.

Lemma length_other_feature_subset (K : nat) (f : Z) (C : list Z) :
  0 ≤ f < Z.of_nat (S K) →
  C ∈ _get_all_other_feature_subsets (Z.of_nat (S K)) f → (length C ≤ K)%nat.
Proof.
  intros Hf HC. unfold _get_all_other_feature_subsets in HC.
  apply elem_of__get_all_subsets, sublist_length in HC.
  rewrite length_filter_ne_present in HC
    by (apply NoDup_range || by apply elem_of_range).
  rewrite length_range in HC. lia.
Qed.



(** X14: a dummy feature gets 0.  If adding the feature f to a coalition
    never changes the finite value that [_subset_model_approximation]
    returns, whatever the enumerated coalition, then
    [_compute_single_shapley_value] returns exactly 0 for f. *)
Theorem dummy_feature_gets_zero self σ bg instance (f : Z) :
  σ !! background_dataset self = Some bg →
  0 ≤ f < len1 instance →
  (∀ C, C ∈ _get_all_other_feature_subsets (len1 instance) f →
        ∃ q, (_subset_model_approximation self C instance σ).1 = Ok (Fin q) ∧
             (_subset_model_approximation self (C ++ [f]) instance σ).1
               = Ok (Fin q)) →
  (_compute_single_shapley_value self f instance σ).1 = Ok (Fin 0%Qc).
Proof.
  intros Hbg Hf Hdummy.
  destruct (_compute_single_shapley_value_run self f instance σ bg Hbg) as (k & ->).
  simpl. unfold single_shapley_value.
  assert (len1 instance = Z.of_nat (S (Z.to_nat (len1 instance) - 1))) as Hlen
    by lia.
  set (K := (Z.to_nat (len1 instance) - 1)%nat) in Hlen.
  rewrite Hlen in Hf, Hdummy |- *.
  unfold float_of_int. rewrite Z2Qc_inj_0.
  rewrite (marginal_fold_value self bg instance K f
             (coalition_value self bg instance)).
  - do 2 f_equal. rewrite (sumQc_fmap_ext _ (λ _, 0%Qc)).
    + rewrite sumQc_fmap_zero. ring.
    + intros C HC. destruct (Hdummy C HC) as (q & H0 & H1).
      destruct (_subset_model_approximation_run self C instance σ bg Hbg)
        as (k0 & Hk0).
      destruct (_subset_model_approximation_run self (C ++ [f]) instance σ bg Hbg)
        as (k1 & Hk1).
      rewrite Hk0 in H0. rewrite Hk1 in H1. simpl in H0, H1.
      unfold coalition_value. rewrite H0, H1. ring.
  - apply Forall_forall. intros C HC.
    split; [by eapply length_other_feature_subset|].
    destruct (Hdummy C HC) as (q & H0 & H1).
    destruct (_subset_model_approximation_run self C instance σ bg Hbg)
      as (k0 & Hk0).
    destruct (_subset_model_approximation_run self (C ++ [f]) instance σ bg Hbg)
      as (k1 & Hk1).
    rewrite Hk0 in H0. rewrite Hk1 in H1. simpl in H0, H1.
    unfold coalition_value. by rewrite H0, H1.
Qed.

Lemma dummy_feature_gets_zero_witness :
  (_compute_single_shapley_value first_column_explainer 1
     (FloatVec [float_of_int 4; float_of_int 6]) store_three_rows).1
  = Ok (Fin 0%Qc).
Proof.
  apply (dummy_feature_gets_zero first_column_explainer store_three_rows
           (FloatArray background_three_rows)
           (FloatVec [float_of_int 4; float_of_int 6]) 1).
  - reflexivity.
  - simpl. lia.
  - intros C HC.
    change (_get_all_other_feature_subsets
              (len1 (FloatVec [float_of_int 4; float_of_int 6])) 1)
      with [[]; [0]] in HC.
    apply elem_of_cons in HC as [->|HC];
      [exists (Q2Qc 1)|apply list_elem_of_singleton in HC as ->; exists (Q2Qc 4)];
      split; apply (bool_decide_unpack _); vm_compute; exact I.
Defined.
